(** * Image-Processing: the transform pipeline of [Lambda1-image-processor.py]

    A shallow embedding of the resize arithmetic, the watermark anchor table,
    the format dispatch, the colour-mode normaliser, the key derivation and
    the record loop of the handler, with the properties of the specification
    stated over them. *)

From Stdlib Require Import ZArith QArith Qround Qabs Qpower Lqa Lia.
From Stdlib Require Import List String Ascii Bool.
From Stdlib Require Import PrimFloat FloatOps SpecFloat Uint63.
Import ListNotations.

Local Open Scope Z_scope.

(** ** Python floats

    CPython's [float] is IEEE 754 binary64 and every operation used by the
    pipeline ([int / int], [int / float], [int * float]) is correctly
    rounded to nearest, ties to even.  A float is represented by the
    rational it denotes.  The exponent range is not represented: the model
    agrees with the hardware for magnitudes between 2^-1022 and 2^1024,
    which covers every quotient and product of integers below 2^31. *)

Module PyFloat.

Local Open Scope Q_scope.

(** [2^k], for any integer [k]. *)
Definition two_pow (k : Z) : Q := 2 ^ k.

(** [floor (log2 x)] for a positive rational [x]. *)
Definition ilog2 (x : Q) : Z :=
  let k := (Z.log2 (Qnum x) - Z.log2 (Zpos (Qden x)))%Z in
  if Qle_bool (two_pow k) x then k else (k - 1)%Z.

(** Nearest integer, ties to the even one. *)
Definition round_half_even (t : Q) : Z :=
  let f := Qfloor t in
  match Qcompare (t - inject_Z f) (1 # 2) with
  | Lt => f
  | Gt => (f + 1)%Z
  | Eq => if Z.even f then f else (f + 1)%Z
  end.

(** The spacing of binary64 numbers around a positive [x]: 53 significant
    bits, so the unit in the last place is [2^(floor(log2 x) - 52)]. *)
Definition ulp (x : Q) : Q := two_pow (ilog2 x - 52).

Definition fl_pos (x : Q) : Q :=
  inject_Z (round_half_even (x / ulp x)) * ulp x.

(** Rounding of a rational to the nearest binary64 number. *)
Definition fl (x : Q) : Q :=
  match Qnum x with
  | Z0 => 0
  | Zpos _ => fl_pos x
  | Zneg _ => - fl_pos (- x)
  end.

(** The unit roundoff of binary64. *)
Definition eps : Q := 1 # (2 ^ 53).

(** [float(n)] for a Python int. *)
Definition of_int (n : Z) : Q := fl (inject_Z n).

(** [a / b] on two Python ints (true division, correctly rounded);
    [None] is [ZeroDivisionError].  A quotient past 2^1024, where Python
    raises [OverflowError], is outside this model: see [PyFloatRange]. *)
Definition int_truediv (a b : Z) : option Q :=
  if (b =? 0)%Z then None else Some (fl (inject_Z a / inject_Z b)).

(** [x / y] and [x * y] on floats; [None] is [ZeroDivisionError]. *)
Definition div (x y : Q) : option Q :=
  if Qeq_bool y 0 then None else Some (fl (x / y)).

Definition mul (x y : Q) : Q := fl (x * y).

(** [x > y] on floats. *)
Definition gtb (x y : Q) : bool := negb (Qle_bool x y).

(** [int(x)]: truncation towards zero. *)
Definition to_int (x : Q) : Z :=
  if Qle_bool 0 x then Qfloor x else Qceiling x.

End PyFloat.


(** ** [resize_image_content]

    The function computes the size it hands to [img.resize]; the resampling
    itself is Pillow's.  [resize_dims w h width height] is that size for an
    image of size [(w, h)]; [None] stands for [ZeroDivisionError]. *)

Definition resize_dims (original_width original_height width height : Z)
  : option (Z * Z) :=
  match PyFloat.int_truediv original_width original_height with
  | None => None
  | Some aspect_ratio =>
    match PyFloat.int_truediv width height with
    | None => None
    | Some box_ratio =>
      if PyFloat.gtb aspect_ratio box_ratio then
        (* Image is wider, fit to width *)
        match PyFloat.div (PyFloat.of_int width) aspect_ratio with
        | None => None
        | Some q => Some (width, PyFloat.to_int q)
        end
      else
        (* Image is taller, fit to height *)
        Some (PyFloat.to_int (PyFloat.mul (PyFloat.of_int height) aspect_ratio),
              height)
    end
  end.

(** ** The range of Python floats

    A float that is not a number of the model above: the two infinities and
    NaN come out of [float(...)] of a configuration string and out of
    products past the range.  The operations below are the ones whose
    result goes to [int(...)], which raises [OverflowError] on an infinity
    and [ValueError] on NaN; [None] is either.  Results below 2^-1022 are
    not rounded to subnormals; every use below truncates them to 0, as
    [int] does with the subnormal. *)

Inductive pyfloat : Type :=
| Finite (value : Q)
| Infinite
| NotANumber.

Module PyFloatRange.

Local Open Scope Q_scope.

(** Whether a rounded value is below 2^1024 in magnitude. *)
Definition in_range (x : Q) : bool :=
  negb (Qle_bool (PyFloat.two_pow 1024) (Qabs x)).

(** [float(n)]: [OverflowError] for an int too large. *)
Definition of_int (n : Z) : option Q :=
  let x := PyFloat.of_int n in
  if in_range x then Some x else None.

(** [a / b] on two ints: [ZeroDivisionError], or [OverflowError] for a
    quotient too large. *)
Definition int_truediv (a b : Z) : option Q :=
  match PyFloat.int_truediv a b with
  | None => None
  | Some q => if in_range q then Some q else None
  end.

(** [int(n * r)] for an int [n] and a float [r]: the int is converted, the
    product is rounded, and [int] raises on an infinite product and on NaN
    (which is also what zero times an infinity gives). *)
Definition int_of_product (n : Z) (r : pyfloat) : option Z :=
  match of_int n with
  | None => None
  | Some x =>
    match r with
    | Finite q =>
      let p := PyFloat.mul x q in
      if in_range p then Some (PyFloat.to_int p) else None
    | Infinite => None
    | NotANumber => None
    end
  end.

End PyFloatRange.

(** The value the specification states for the same arguments: exact
    rational comparison and exact floors. *)
Definition resize_spec (w h W H : Z) : Z * Z :=
  if W * h <? w * H then (W, W * h / w) else (H * w / h, H).

(** Pillow keeps the width and the height of a raster in C [int]s, and
    takes the size given to [resize] as C [int]s. *)
Definition pil_dim (n : Z) : Prop := 0 < n < 2 ^ 31.

(** ** Python strings

    Keys, anchors and format names are [str] values; the operations used on
    them are modelled on [string]. *)

Module PyStr.

Local Open Scope string_scope.

(** [str.lower] on the ASCII letters; a key is kept as its bytes.  Python
    lowers letters outside ASCII as well, and none of them to a letter of
    the extension table: U+212A gives [k], U+0130 gives [i] followed by
    U+0307. *)
Definition lower_ascii (c : ascii) : ascii :=
  let n := nat_of_ascii c in
  if (65 <=? n)%nat && (n <=? 90)%nat then ascii_of_nat (n + 32) else c.

Fixpoint lower (s : string) : string :=
  match s with
  | EmptyString => EmptyString
  | String c r => String (lower_ascii c) (lower r)
  end.

(** [s.endswith(suffix)]. *)
Definition endswith (s suffix : string) : bool :=
  let n := String.length s in
  let m := String.length suffix in
  (m <=? n)%nat && String.eqb (substring (n - m) m s) suffix.

(** [s.split(sep)] for a one-character separator: never the empty list. *)
Fixpoint split (sep : ascii) (s : string) : list string :=
  match s with
  | EmptyString => [EmptyString]
  | String c r =>
    if Ascii.eqb c sep then EmptyString :: split sep r
    else match split sep r with
         | x :: xs => String c x :: xs
         | [] => [String c EmptyString]
         end
  end.

(** [sep.join(parts)]. *)
Fixpoint join (sep : string) (parts : list string) : string :=
  match parts with
  | [] => EmptyString
  | [x] => x
  | x :: xs => x ++ sep ++ join sep xs
  end.

(** [s.rfind(c)]: the last index of [c], or [-1]. *)
Fixpoint rfind_from (c : ascii) (s : string) (i acc : Z) : Z :=
  match s with
  | EmptyString => acc
  | String a r => rfind_from c r (i + 1) (if Ascii.eqb a c then i else acc)
  end.

Definition rfind (c : ascii) (s : string) : Z := rfind_from c s 0 (-1).

(** [c in s]. *)
Fixpoint contains (c : ascii) (s : string) : bool :=
  match s with
  | EmptyString => false
  | String a r => Ascii.eqb a c || contains c r
  end.

(** [s[:i]] and [s[i:]] for [0 <= i]. *)
Definition take (i : Z) (s : string) : string := substring 0 (Z.to_nat i) s.

Definition drop (i : Z) (s : string) : string :=
  substring (Z.to_nat i) (String.length s - Z.to_nat i) s.

End PyStr.

(** [os.path.splitext] (posixpath): the extension starts at the last dot of
    the last path component, leading dots of that component not counting. *)
Fixpoint has_non_dot (p : string) (filenameIndex : Z) (steps : nat) : bool :=
  match steps with
  | O => false
  | S n =>
    match String.get (Z.to_nat filenameIndex) p with
    | Some "."%char => has_non_dot p (filenameIndex + 1) n
    | _ => true
    end
  end.

Definition splitext (p : string) : string * string :=
  let sepIndex := PyStr.rfind "/" p in
  let dotIndex := PyStr.rfind "." p in
  if (sepIndex <? dotIndex)
     && has_non_dot p (sepIndex + 1) (Z.to_nat (dotIndex - (sepIndex + 1)))
  then (PyStr.take dotIndex p, PyStr.drop dotIndex p)
  else (p, EmptyString).

(** ** [is_image_file] *)

Definition image_extensions : list string :=
  [".jpg"; ".jpeg"; ".png"; ".gif"; ".bmp"; ".webp"]%string.

Definition is_image_file (file_key : string) : bool :=
  existsb (fun ext => PyStr.endswith (PyStr.lower file_key) ext) image_extensions.

(** The specification's reading of the filter: the key ends with the
    extension up to letter case. *)
Definition ends_with_ci (key ext : string) : Prop :=
  exists stem tail, key = (stem ++ tail)%string /\ PyStr.lower tail = ext.

(** ** [generate_destination_key] *)

Definition generate_destination_key (source_key : string) : string :=
  let path_parts := PyStr.split "/" source_key in
  let filename := last path_parts EmptyString in
  let directory :=
    if (1 <? Z.of_nat (List.length path_parts))
    then PyStr.join "/" (removelast path_parts) else EmptyString in
  let '(name, ext) := splitext filename in
  let new_filename := ("processed-" ++ name ++ ext)%string in
  if negb (String.eqb directory EmptyString)
  then (directory ++ "/" ++ new_filename)%string
  else new_filename.

(** ** [get_content_type] *)

(** [dict.get(key, default)] on a dictionary given by its items. *)
Fixpoint dict_get {A : Type} (d : list (string * A)) (k : string) (default : A) : A :=
  match d with
  | [] => default
  | (k', v) :: rest => if String.eqb k k' then v else dict_get rest k default
  end.

Definition content_types : list (string * string) :=
  [(".jpg", "image/jpeg"); (".jpeg", "image/jpeg"); (".png", "image/png");
   (".gif", "image/gif"); (".bmp", "image/bmp"); (".webp", "image/webp")]%string.

Definition get_content_type (file_key : string) : string :=
  let ext := snd (splitext (PyStr.lower file_key)) in
  dict_get content_types ext "application/octet-stream"%string.

(** ** The anchor table of [add_watermark] *)

Definition margin : Z := 20.

Definition position_map (img_width img_height text_width text_height : Z)
  : list (string * (Z * Z)) :=
  [("top-left", (margin, margin));
   ("top-right", (img_width - text_width - margin, margin));
   ("bottom-left", (margin, img_height - text_height - margin));
   ("bottom-right",
    (img_width - text_width - margin, img_height - text_height - margin));
   ("center", ((img_width - text_width) / 2, (img_height - text_height) / 2))]%string.

(** [position_map.get(position, position_map['bottom-right'])]; the key
    ['bottom-right'] is in the table, so the default is always defined. *)
Definition watermark_xy (position : string)
  (img_width img_height text_width text_height : Z) : Z * Z :=
  let m := position_map img_width img_height text_width text_height in
  dict_get m position (dict_get m "bottom-right"%string (0, 0)).

(** ** The format dispatch of [process_image] *)

Definition format_map : list (string * string) :=
  [("JPEG", "JPEG"); ("JPG", "JPEG"); ("PNG", "PNG");
   ("GIF", "GIF"); ("BMP", "BMP"); ("WEBP", "WEBP")]%string.

(** [img.format] is [None] when Pillow did not read the image from a file. *)
Definition output_format (original_format : option string) : string :=
  match original_format with
  | Some f => dict_get format_map f "JPEG"%string
  | None => "JPEG"%string
  end.

(** The keyword arguments of the [save] call. *)
Record save_call := {
  save_format : string;
  save_quality : option Z;
  save_optimize : option bool
}.

Definition encoder_call (original_format : option string) (quality : Z) : save_call :=
  let fmt := output_format original_format in
  if String.eqb fmt "JPEG"
  then {| save_format := fmt; save_quality := Some quality; save_optimize := Some true |}
  else {| save_format := fmt; save_quality := None; save_optimize := Some true |}.

(** ** Rasters

    A decoded image: its mode, its size and its pixels.  Pillow is outside
    the repository; its operations enter through [pillow], a record of the
    functions whose arithmetic belongs to the library. *)

Definition rgb : Type := Z * Z * Z.
Definition rgba : Type := Z * Z * Z * Z.

Inductive raster : Type :=
| ImgRGB (size : Z * Z) (px : Z -> Z -> rgb)
| ImgRGBA (size : Z * Z) (px : Z -> Z -> rgba)
| ImgLA (size : Z * Z) (px : Z -> Z -> Z * Z)
| ImgP (size : Z * Z) (palette : Z -> rgba) (px : Z -> Z -> Z)
| ImgOther (mode : string) (size : Z * Z) (px : Z -> Z -> list Z).

Definition mode (img : raster) : string :=
  match img with
  | ImgRGB _ _ => "RGB"
  | ImgRGBA _ _ => "RGBA"
  | ImgLA _ _ => "LA"
  | ImgP _ _ _ => "P"
  | ImgOther m _ _ => m
  end.

Definition size (img : raster) : Z * Z :=
  match img with
  | ImgRGB s _ | ImgRGBA s _ | ImgLA s _ | ImgP s _ _ | ImgOther _ s _ => s
  end.

Record pillow := {
  (** mixing of one band under a mask value: [blend m old new] *)
  blend : Z -> Z -> Z -> Z;
  (** [Image.alpha_composite] on one pixel: [alpha_over dst src] *)
  alpha_over : rgba -> rgba -> rgba;
  (** coverage of the rendered text at a pixel: text, origin, pixel *)
  glyph_cov : string -> Z * Z -> Z -> Z -> Z;
  (** [ImageDraw.textbbox((0, 0), text, font)] *)
  textbbox : string -> Z * Z * Z * Z;
  (** conversion of a pixel of any other mode to RGBA *)
  convert_other : string -> list Z -> rgba
}.

(** What the documentation of Pillow promises of these functions: a mask of
    0 keeps the old value, a mask of 255 takes the new one, and compositing
    a fully transparent pixel changes nothing. *)
Record pillow_laws (pil : pillow) : Prop := {
  blend_0 : forall old new, blend pil 0 old new = old;
  blend_255 : forall old new, blend pil 255 old new = new;
  alpha_over_transparent :
    forall dst r g b, alpha_over pil dst (r, g, b, 0) = dst
}.

Section Pillow.

Variable pil : pillow.

(** [Image.new(mode, size, color)]. *)
Definition new_rgb (sz : Z * Z) (color : rgb) : raster :=
  ImgRGB sz (fun _ _ => color).

Definition new_rgba (sz : Z * Z) (color : rgba) : raster :=
  ImgRGBA sz (fun _ _ => color).

(** The pixel of [img.convert('RGBA')]. *)
Definition rgba_px (img : raster) (x y : Z) : rgba :=
  match img with
  | ImgRGB _ px => let '(r, g, b) := px x y in (r, g, b, 255)
  | ImgRGBA _ px => px x y
  | ImgLA _ px => let '(l, a) := px x y in (l, l, l, a)
  | ImgP _ palette px => palette (px x y)
  | ImgOther m _ px => convert_other pil m (px x y)
  end.

Definition convert_rgba (img : raster) : raster :=
  ImgRGBA (size img) (rgba_px img).

(** [img.split()[-1]]: the last band. *)
Definition last_band (img : raster) (x y : Z) : Z :=
  match img with
  | ImgRGB _ px => let '(_, _, b) := px x y in b
  | ImgRGBA _ px => let '(_, _, _, a) := px x y in a
  | ImgLA _ px => snd (px x y)
  | ImgP _ _ px => px x y
  | ImgOther _ _ px => last (px x y) 0
  end.

(** [background.paste(img, mask=...)] on an RGB background of the size of
    [img].  With a mask the bands are mixed under it; without one the colour
    bands of the source are copied and its alpha band, if any, is dropped. *)
Definition paste (background : Z -> Z -> rgb) (img : raster)
  (mask : option (Z -> Z -> Z)) (x y : Z) : rgb :=
  let '(r, g, b, _) := rgba_px img x y in
  match mask with
  | Some m =>
    let '(r0, g0, b0) := background x y in
    (blend pil (m x y) r0 r, blend pil (m x y) g0 g, blend pil (m x y) b0 b)
  | None => (r, g, b)
  end.

Definition white : rgb := (255, 255, 255).

Definition mode_in (m : string) (modes : list string) : bool :=
  existsb (String.eqb m) modes.

(** The colour-mode normaliser, lines 112-117 of [process_image]. *)
Definition normalize (img : raster) : raster :=
  if mode_in (mode img) ["RGBA"; "LA"; "P"]%string then
    let background := fun _ _ : Z => white in
    let img1 := if String.eqb (mode img) "P" then convert_rgba img else img in
    let mask := if String.eqb (mode img1) "RGBA"
                then Some (last_band img1) else None in
    ImgRGB (size img) (paste background img1 mask)
  else img.

(** The anchor of the text: the bounding box of the text is measured and
    looked up in the anchor table. *)
Definition watermark_origin (img : raster) (watermark_text position : string)
  : Z * Z :=
  let '(img_width, img_height) := size img in
  let '(x0, y0, x1, y1) := textbbox pil watermark_text in
  let text_width := x1 - x0 in
  let text_height := y1 - y0 in
  watermark_xy position img_width img_height text_width text_height.

(** Coverage of the watermark text at a pixel of the overlay. *)
Definition watermark_cov (img : raster) (watermark_text position : string)
  (x y : Z) : Z :=
  glyph_cov pil watermark_text
    (watermark_origin img watermark_text position) x y.

(** [add_watermark].  The font size is computed and not used, the default
    font being loaded in both arms of the [try]; its computation still
    raises for a size ratio that is infinite or NaN, or whose product with
    the width is past the range of floats.  [None] is that exception. *)
Definition add_watermark (img : raster) (watermark_text : string)
  (opacity : Z) (position : string) (size_ratio : pyfloat) : option raster :=
  let watermarked := img in
  match PyFloatRange.int_of_product (fst (size watermarked)) size_ratio with
  | None => None
  | Some font_size =>
    (* draw.text on the transparent overlay, in white with the opacity *)
    let overlay := fun x y : Z =>
      let c := watermark_cov watermarked watermark_text position x y in
      (blend pil c 0 255, blend pil c 0 255, blend pil c 0 255,
       blend pil c 0 opacity) in
    (* Image.alpha_composite(watermarked.convert('RGBA'), overlay) *)
    let composite := ImgRGBA (size watermarked)
      (fun x y => alpha_over pil (rgba_px watermarked x y) (overlay x y)) in
    (* the composite is RGBA: flatten it on white under its own alpha *)
    Some (ImgRGB (size composite)
            (paste (fun _ _ => white) composite (Some (last_band composite))))
  end.

(** The rectangle the drawn text occupies: Pillow draws the text at the
    anchor displaced by the offsets of its bounding box, so the box
    measured at [(0, 0)] is moved to the anchor. *)
Definition drawn_bbox (img : raster) (watermark_text position : string)
  : Z * Z * Z * Z :=
  let '(x, y) := watermark_origin img watermark_text position in
  let '(x0, y0, x1, y1) := textbbox pil watermark_text in
  (x + x0, y + y0, x + x1, y + y1).

(** [img.resize(size, LANCZOS)] is Pillow's; [resize_image_content] hands
    it the computed size.  [None] is an exception of the size computation
    or of Pillow. *)
Definition resize_image_content
  (resample : raster -> Z * Z -> option raster)
  (img : raster) (width height : Z) : option raster :=
  match resize_dims (fst (size img)) (snd (size img)) width height with
  | None => None
  | Some new_size => resample img new_size
  end.

(** The pixel of a raster as a colour with alpha, whatever its mode. *)
Definition pixel (img : raster) (x y : Z) : rgba := rgba_px img x y.

End Pillow.

(** A concrete Pillow: linear mixing, source-over of an opaque or empty
    pixel, a font that draws nothing. *)
Definition reference_pillow : pillow := {|
  blend := fun m old new => (old * (255 - m) + new * m) / 255;
  alpha_over := fun dst src =>
    let '(_, _, _, a) := src in if a =? 0 then dst else src;
  glyph_cov := fun _ _ _ _ => 0;
  textbbox := fun _ => (0, 0, 0, 0);
  convert_other := fun _ _ => (0, 0, 0, 255)
|}.

(** What Pillow promises of [resize]: a raster of the size asked for, and
    [ValueError] for a size with a side that is not positive. *)
Record resize_laws (resample : raster -> Z * Z -> option raster) : Prop := {
  resize_size :
    forall r s out, resample r s = Some out -> size out = s;
  resize_rejects_empty :
    forall r s, fst s <= 0 \/ snd s <= 0 -> resample r s = None
}.

(** A resize for the examples: nearest neighbour, and no raster of an
    empty size. *)
Definition sample_resample (r : raster) (s : Z * Z) : option raster :=
  if (0 <? fst s) && (0 <? snd s)
  then Some (ImgRGBA s (fun x y =>
               rgba_px reference_pillow r
                 (x * fst (size r) / fst s) (y * snd (size r) / snd s)))
  else None.

(** A Pillow whose font covers a 2x2 square at the anchor, for examples
    with pixels under the text. *)
Definition inked_pillow : pillow := {|
  blend := blend reference_pillow;
  alpha_over := fun dst src =>
    let '(r0, g0, b0, a0) := dst in
    let '(r, g, b, a) := src in
    if a =? 0 then dst
    else (blend reference_pillow a r0 r, blend reference_pillow a g0 g,
          blend reference_pillow a b0 b, 255);
  glyph_cov := fun _ origin x y =>
    if (fst origin <=? x) && (x <? fst origin + 2) &&
       (snd origin <=? y) && (y <? snd origin + 2)
    then 255 else 0;
  textbbox := fun _ => (0, 1, 2, 3);
  convert_other := fun _ _ => (0, 0, 0, 255)
|}.

(** ** [lambda_handler]

    The storage client and the codec raise or return; [result] is the
    outcome of a call, the message of the exception in the failing case. *)

Inductive result (A : Type) : Type :=
| Ok (a : A)
| Raise (message : string).

Arguments Ok {A} a.
Arguments Raise {A} message.

Record config := {
  DESTINATION_BUCKET : string;
  RESIZE_WIDTH : Z;
  RESIZE_HEIGHT : Z;
  QUALITY : Z;
  WATERMARK_TEXT : string;
  WATERMARK_OPACITY : Z;
  WATERMARK_POSITION : string;
  WATERMARK_SIZE_RATIO : Q
}.

(** The collaborators of the handler.  [process_image] decodes and encodes
    through Pillow and is a collaborator here as well: the handler only
    looks at whether it raised. *)
Record services := {
  unquote_plus : string -> string;
  get_object : string -> string -> result string;
  process_image : string -> config -> result string;
  put_object : string -> string -> string -> string -> result unit
}.

(** A record of the event, seen through the two accesses the loop makes:
    the bucket name and the raw key, or the exception of a failed access. *)
Definition record : Type := result (string * string).

Inductive call : Type :=
| GetObject (bucket key : string)
| ProcessImage (content : string)
| PutObject (bucket key body content_type : string).

(** What an invocation leaves behind: the lines printed and the calls made,
    oldest first. *)
Record world := {
  printed : list string;
  calls : list call
}.

Definition print (line : string) (w : world) : world :=
  {| printed := printed w ++ [line]; calls := calls w |}.

Definition called (c : call) (w : world) : world :=
  {| printed := printed w; calls := calls w ++ [c] |}.

Record response := {
  statusCode : Z;
  body : string
}.

Section Handler.

Local Open Scope string_scope.

Variable cfg : config.
Variable svc : services.

(** The body of the [for] loop on one record: the world after it, and the
    message of an exception that leaves the body, if any.  [continue] and
    the end of the body both give [None]. *)
Definition loop_body (r : record) (w : world) : world * option string :=
  match r with
  | Raise e => (w, Some e)
  | Ok (source_bucket, raw_key) =>
    let source_key := unquote_plus svc raw_key in
    let w := print ("Processing image: " ++ source_key
                    ++ " from bucket: " ++ source_bucket) w in
    if negb (is_image_file source_key) then
      (print ("Skipping non-image file: " ++ source_key) w, None)
    else
      let w := called (GetObject source_bucket source_key) w in
      match get_object svc source_bucket source_key with
      | Raise e =>
        (print ("Error downloading " ++ source_key ++ ": " ++ e) w, None)
      | Ok image_content =>
        let w := called (ProcessImage image_content) w in
        match process_image svc image_content cfg with
        | Raise e =>
          (print ("Error processing " ++ source_key ++ ": " ++ e) w, None)
        | Ok processed_image_content =>
          let destination_key := generate_destination_key source_key in
          let w := called (PutObject (DESTINATION_BUCKET cfg) destination_key
                             processed_image_content
                             (get_content_type source_key)) w in
          match put_object svc (DESTINATION_BUCKET cfg) destination_key
                  processed_image_content (get_content_type source_key) with
          | Raise e =>
            (print ("Error uploading " ++ destination_key ++ ": " ++ e) w, None)
          | Ok _ =>
            (print ("Successfully uploaded processed image: "
                    ++ destination_key) w, None)
          end
        end
      end
  end.

(** The [for] loop: an exception that leaves the body ends it. *)
Fixpoint for_records (records : list record) (w : world)
  : world * option string :=
  match records with
  | [] => (w, None)
  | r :: rest =>
    match loop_body r w with
    | (w', None) => for_records rest w'
    | (w', Some e) => (w', Some e)
    end
  end.

(** The handler: [event_records] is the outcome of [event['Records']].  The
    body of the response is given before [json.dumps]. *)
Definition lambda_handler (event_records : result (list record)) (w : world)
  : world * response :=
  let failure e w :=
    (print ("Error in lambda_handler: " ++ e) w,
     {| statusCode := 500; body := "Error processing images: " ++ e |}) in
  match event_records with
  | Raise e => failure e w
  | Ok records =>
    match for_records records w with
    | (w', None) =>
      (w', {| statusCode := 200; body := "Images processed successfully" |})
    | (w', Some e) => failure e w'
    end
  end.

End Handler.

(** A record whose two accesses succeed. *)
Definition well_formed (r : record) : Prop :=
  match r with Ok _ => True | Raise _ => False end.

Definition empty_world : world := {| printed := []; calls := [] |}.

Local Open Scope string_scope.

(** A batch against a store that lacks one of the objects. *)
Definition default_config : config := {|
  DESTINATION_BUCKET := "resized-image-bucket-9965";
  RESIZE_WIDTH := 800;
  RESIZE_HEIGHT := 600;
  QUALITY := 85;
  WATERMARK_TEXT := "By Ahmed_Ashraf";
  WATERMARK_OPACITY := 200;
  WATERMARK_POSITION := "bottom-right";
  WATERMARK_SIZE_RATIO := PyFloat.fl (3 # 10)
|}.

Definition sample_services : services := {|
  unquote_plus := fun key => key;
  get_object := fun _ key =>
    if String.eqb key "missing.jpg" then Raise "NoSuchKey" else Ok key;
  process_image := fun content _ => Ok content;
  put_object := fun _ _ _ _ => Ok tt
|}.

Local Close Scope string_scope.

(** ** The same arithmetic on the machine's binary64

    The kernel's primitive floats are the IEEE 754 binary64 numbers of the
    processor.  [resize_dims_hw] is [resize_image_content] on them, for
    positive sizes below 2^53, which convert exactly; it is there to
    check [PyFloat.fl] against the machine on concrete sizes. *)

Definition hw_of_int (n : Z) : float := PrimFloat.of_uint63 (Uint63.of_Z n).

(** [int(x)] for a finite float. *)
Definition hw_to_int (x : float) : Z :=
  match Prim2SF x with
  | S754_finite s m e =>
    let v := if 0 <=? e then Z.pos m * 2 ^ e else Z.pos m / 2 ^ (- e) in
    if s then - v else v
  | _ => 0
  end.

(** The rational a finite float denotes. *)
Definition hw_value (x : float) : option Q :=
  match Prim2SF x with
  | S754_zero _ => Some 0%Q
  | S754_finite s m e =>
    let v := (inject_Z (Z.pos m) * PyFloat.two_pow e)%Q in
    Some (if s then Qopp v else v)
  | _ => None
  end.

Definition resize_dims_hw (original_width original_height width height : Z)
  : Z * Z :=
  let aspect_ratio :=
    PrimFloat.div (hw_of_int original_width) (hw_of_int original_height) in
  if PrimFloat.ltb (PrimFloat.div (hw_of_int width) (hw_of_int height))
       aspect_ratio
  then (width, hw_to_int (PrimFloat.div (hw_of_int width) aspect_ratio))
  else (hw_to_int (PrimFloat.mul (hw_of_int height) aspect_ratio), height).

(** ** Definitions for the further properties *)

(** Sizes for which the products of two of them stay far below 2^53. *)
Definition small_dim (n : Z) : Prop := 0 < n < 2 ^ 24.

(** ** [add_image_watermark]

    The alternative watermark: an image is scaled to a fraction of the
    width, its alpha is scaled by the opacity and it is pasted at the
    anchor.  [resample] is Pillow's [resize], [None] when it raises; the
    sizes of a raster are C [int]s, for which the quotient below is never
    subnormal. *)

(** [int(a * opacity / 255)]. *)
Definition scale_alpha (a opacity : Z) : Z :=
  match PyFloat.int_truediv (a * opacity) 255 with
  | Some q => PyFloat.to_int q
  | None => 0
  end.

Section ImageWatermark.

Variable pil : pillow.
Variable resample : raster -> Z * Z -> option raster.

(** The pixel of [watermark_with_opacity]. *)
Definition with_opacity (watermark : raster) (opacity : Z) (x y : Z) : rgba :=
  let '(r, g, b, a) := rgba_px pil watermark x y in
  (r, g, b, scale_alpha a opacity).

(** Whether a pixel lies in the box a raster of size [sz] covers when it
    is pasted at [xy]. *)
Definition in_box (xy sz : Z * Z) (x y : Z) : bool :=
  (fst xy <=? x) && (x <? fst xy + fst sz) &&
  (snd xy <=? y) && (y <? snd xy + snd sz).

(** [watermarked.paste(source, xy, source)] on an RGBA raster: inside the
    box the four bands are mixed under the alpha of the source. *)
Definition paste_rgba (base : Z -> Z -> rgba) (source : Z -> Z -> rgba)
  (xy sz : Z * Z) (x y : Z) : rgba :=
  if in_box xy sz x y then
    let '(r0, g0, b0, a0) := base x y in
    let '(r, g, b, a) := source (x - fst xy) (y - snd xy) in
    (blend pil a r0 r, blend pil a g0 g, blend pil a b0 b, blend pil a a0 a)
  else base x y.

Definition add_image_watermark (img watermark : raster) (opacity : Z)
  (position : string) (scale_ratio : pyfloat) : option raster :=
  let watermarked := img in
  let '(img_width, img_height) := size watermarked in
  match PyFloatRange.int_of_product img_width scale_ratio with
  | None => None
  | Some wm_width =>
    match PyFloatRange.int_truediv wm_width (fst (size watermark)) with
    | None => None
    | Some ratio =>
      match PyFloatRange.int_of_product (snd (size watermark)) (Finite ratio) with
      | None => None
      | Some wm_height =>
        match resample watermark (wm_width, wm_height) with
        | None => None
        | Some watermark =>
          let watermark :=
            if negb (String.eqb (mode watermark) "RGBA")
            then convert_rgba pil watermark else watermark in
          let watermark_with_opacity := with_opacity watermark opacity in
          let xy :=
            watermark_xy position img_width img_height wm_width wm_height in
          let watermarked :=
            if negb (String.eqb (mode watermarked) "RGBA")
            then convert_rgba pil watermarked else watermarked in
          Some (ImgRGBA (size watermarked)
                  (paste_rgba (rgba_px pil watermarked) watermark_with_opacity
                     xy (size watermark)))
        end
      end
    end
  end.

(** ** [process_image] between the decoder and the encoder

    The decoded raster is normalised, resized and watermarked, and the
    arguments of [save] are chosen; [None] when the size computation,
    Pillow's [resize] or the font size computation raises. *)
Definition process_raster (img : raster) (original_format : option string)
  (width height quality : Z) (watermark_text : string) (opacity : Z)
  (position : string) (size_ratio : pyfloat) : option (raster * save_call) :=
  let img := normalize pil img in
  match resize_image_content resample img width height with
  | None => None
  | Some resized_img =>
    match add_watermark pil resized_img watermark_text opacity position
            size_ratio with
    | None => None
    | Some watermarked_img =>
      Some (watermarked_img, encoder_call original_format quality)
    end
  end.

End ImageWatermark.

(** ** The calls of the handler *)

(** Where a call of the handler comes from: a read is the read of an image
    key of the batch; a transform works on what a read returned; a write
    goes to the destination bucket, under the derived key, with the output
    of the transform of what was read under the source key. *)
Definition justified (cfg : config) (svc : services)
  (records : list record) (c : call) : Prop :=
  match c with
  | GetObject bucket key =>
    exists raw, In (Ok (bucket, raw)) records /\
      key = unquote_plus svc raw /\ is_image_file key = true
  | ProcessImage content =>
    exists bucket raw, In (Ok (bucket, raw)) records /\
      is_image_file (unquote_plus svc raw) = true /\
      get_object svc bucket (unquote_plus svc raw) = Ok content
  | PutObject bucket key content content_type =>
    bucket = DESTINATION_BUCKET cfg /\
    exists source_bucket raw image_content,
      In (Ok (source_bucket, raw)) records /\
      is_image_file (unquote_plus svc raw) = true /\
      get_object svc source_bucket (unquote_plus svc raw) = Ok image_content /\
      process_image svc image_content cfg = Ok content /\
      key = generate_destination_key (unquote_plus svc raw) /\
      content_type = get_content_type (unquote_plus svc raw)
  end.

(** * Properties *)

Module PyFloatFacts.

Import PyFloat.
Local Open Scope Q_scope.

(** *** Error bound of the rounding *)

Lemma two_pow_pos k : 0 < two_pow k.
Proof. unfold two_pow. apply Qpower_0_lt. reflexivity. Qed.

Lemma two_pow_add a b : two_pow (a + b) == two_pow a * two_pow b.
Proof. unfold two_pow. apply Qpower_plus. discriminate. Qed.

Lemma two_pow_Z k : (0 <= k)%Z -> two_pow k == inject_Z (2 ^ k).
Proof. intros Hk. unfold two_pow. rewrite Zpower_Qpower by assumption. reflexivity. Qed.

Lemma ilog2_le x : 0 < x -> two_pow (ilog2 x) <= x.
Proof.
  intros Hx. unfold ilog2.
  destruct (Qle_bool _ x) eqn:E.
  - now apply Qle_bool_iff.
  - clear E. destruct x as [n d]. cbn [Qnum Qden].
    assert (Hn : (0 < n)%Z).
    { unfold Qlt in Hx. simpl in Hx. lia. }
    set (a := Z.log2 n). set (b := Z.log2 (Z.pos d)).
    assert (Ha : (2 ^ a <= n)%Z) by (apply Z.log2_spec; assumption).
    assert (Hb : (Z.pos d < 2 ^ (b + 1))%Z).
    { replace (b + 1)%Z with (Z.succ b) by lia. apply Z.log2_spec. lia. }
    assert (Ha0 : (0 <= a)%Z) by apply Z.log2_nonneg.
    assert (Hb0 : (0 <= b)%Z) by apply Z.log2_nonneg.
    replace (a - b - 1)%Z with (a + - (b + 1))%Z by lia.
    rewrite two_pow_add. unfold two_pow at 2. rewrite Qpower_opp.
    fold (two_pow (b + 1)). rewrite !two_pow_Z by lia.
    assert (Hp : (0 < 2 ^ (b + 1))%Z) by (apply Z.pow_pos_nonneg; lia).
    apply Qle_shift_div_r.
    + unfold Qlt. simpl. lia.
    + unfold Qle, Qmult, inject_Z. simpl. nia.
Qed.

Lemma round_half_even_err t :
  t - (1 # 2) <= inject_Z (round_half_even t) <= t + (1 # 2).
Proof.
  unfold round_half_even.
  pose proof (Qfloor_le t) as Hlo. pose proof (Qlt_floor t) as Hhi.
  rewrite inject_Z_plus in Hhi. change (inject_Z 1) with 1 in Hhi.
  destruct (Qcompare_spec (t - inject_Z (Qfloor t)) (1 # 2)) as [E|E|E].
  - destruct (Z.even (Qfloor t)); rewrite ?inject_Z_plus; change (inject_Z 1) with 1; lra.
  - lra.
  - rewrite inject_Z_plus. change (inject_Z 1) with 1. lra.
Qed.

Lemma ilog2_lt x : 0 < x -> x < two_pow (ilog2 x + 1).
Proof.
  intros Hx. unfold ilog2.
  destruct (Qle_bool _ x) eqn:E.
  - clear E. destruct x as [n d]. cbn [Qnum Qden].
    assert (Hn : (0 < n)%Z).
    { unfold Qlt in Hx. simpl in Hx. lia. }
    set (a := Z.log2 n). set (b := Z.log2 (Z.pos d)).
    assert (Ha : (n < 2 ^ (a + 1))%Z).
    { replace (a + 1)%Z with (Z.succ a) by lia. apply Z.log2_spec. assumption. }
    assert (Hb : (2 ^ b <= Z.pos d)%Z) by (apply Z.log2_spec; lia).
    assert (Ha0 : (0 <= a)%Z) by apply Z.log2_nonneg.
    assert (Hb0 : (0 <= b)%Z) by apply Z.log2_nonneg.
    replace (a - b + 1)%Z with ((a + 1) + - b)%Z by lia.
    rewrite two_pow_add. unfold two_pow at 2. rewrite Qpower_opp.
    fold (two_pow b). rewrite !two_pow_Z by lia.
    assert (Hp : (0 < 2 ^ b)%Z) by (apply Z.pow_pos_nonneg; lia).
    apply Qlt_shift_div_l.
    + unfold Qlt. simpl. lia.
    + unfold Qlt, Qmult, inject_Z. simpl. nia.
  - replace (Z.log2 (Qnum x) - Z.log2 (Z.pos (Qden x)) - 1 + 1)%Z
      with (Z.log2 (Qnum x) - Z.log2 (Z.pos (Qden x)))%Z by lia.
    apply Qnot_le_lt. intros Hle. apply Qle_bool_iff in Hle. congruence.
Qed.

(** The scaled value lies in one binade, so the rounded significand has 53
    bits: the result is a binary64 number. *)
Lemma fl_pos_significand x :
  0 < x ->
  (2 ^ 52 <= round_half_even (x / ulp x) <= 2 ^ 53)%Z.
Proof.
  intros Hx.
  assert (Hq : 0 < ulp x) by apply two_pow_pos.
  pose proof (ilog2_le x Hx) as Hlo. pose proof (ilog2_lt x Hx) as Hhi.
  assert (E1 : two_pow (ilog2 x) == inject_Z (2 ^ 52) * ulp x).
  { unfold ulp. rewrite <- (two_pow_Z 52) by lia. rewrite <- two_pow_add.
    replace (52 + (ilog2 x - 52))%Z with (ilog2 x) by lia. reflexivity. }
  assert (E2 : two_pow (ilog2 x + 1) == inject_Z (2 ^ 53) * ulp x).
  { unfold ulp. rewrite <- (two_pow_Z 53) by lia. rewrite <- two_pow_add.
    replace (53 + (ilog2 x - 52))%Z with (ilog2 x + 1)%Z by lia. reflexivity. }
  rewrite E1 in Hlo. rewrite E2 in Hhi.
  assert (Ht1 : inject_Z (2 ^ 52) <= x / ulp x).
  { apply Qle_shift_div_l; assumption. }
  assert (Ht2 : x / ulp x < inject_Z (2 ^ 53)).
  { apply Qlt_shift_div_r; assumption. }
  set (t := x / ulp x) in *.
  unfold round_half_even.
  assert (F1 : (2 ^ 52 <= Qfloor t)%Z).
  { rewrite <- (Qfloor_Z (2 ^ 52)). apply Qfloor_resp_le. assumption. }
  assert (F2 : (Qfloor t < 2 ^ 53)%Z).
  { pose proof (Qfloor_le t) as Hf. rewrite Zlt_Qlt. lra. }
  destruct (Qcompare _ _); [destruct (Z.even _)| |]; lia.
Qed.

Ltac eps_const := change eps with (1 # 9007199254740992) in *.

Lemma ulp_le x : 0 < x -> ulp x <= x * (2 * eps).
Proof.
  intros Hx. unfold ulp.
  replace (ilog2 x - 52)%Z with (ilog2 x + -52)%Z by lia.
  rewrite two_pow_add.
  pose proof (ilog2_le x Hx) as H.
  assert (E : two_pow (-52) == 2 * eps) by reflexivity.
  rewrite E. apply Qmult_le_compat_r; [assumption|]. discriminate.
Qed.

Lemma fl_pos_err x :
  0 < x -> x * (1 - eps) <= fl_pos x <= x * (1 + eps).
Proof.
  intros Hx. unfold fl_pos.
  pose proof (ulp_le x Hx) as Hu.
  assert (Hq : 0 < ulp x) by apply two_pow_pos.
  pose proof (round_half_even_err (x / ulp x)) as [Hlo Hhi].
  set (m := inject_Z (round_half_even (x / ulp x))) in *.
  assert (Ex : x / ulp x * ulp x == x).
  { field. intro Hz. rewrite Hz in Hq. discriminate. }
  assert (H1 : (x / ulp x - (1 # 2)) * ulp x <= m * ulp x).
  { apply Qmult_le_compat_r; [assumption | apply Qlt_le_weak; assumption]. }
  assert (H2 : m * ulp x <= (x / ulp x + (1 # 2)) * ulp x).
  { apply Qmult_le_compat_r; [assumption | apply Qlt_le_weak; assumption]. }
  eps_const.
  split; lra.
Qed.

Lemma fl_err x : 0 < x -> x * (1 - eps) <= fl x <= x * (1 + eps).
Proof.
  intros Hx. unfold fl.
  destruct x as [n d]. simpl.
  destruct n as [|p|p]; try (unfold Qlt in Hx; simpl in Hx; lia).
  apply fl_pos_err. assumption.
Qed.


Lemma fl_pos_gt x : 0 < x -> 0 < fl x.
Proof.
  intros Hx. pose proof (fl_err x Hx) as [H _].
  apply Qlt_le_trans with (x * (1 - eps)); [|assumption].
  apply Qmult_lt_0_compat; [assumption | reflexivity].
Qed.

(** The bound in product form, for a quotient and for a product. *)
Lemma fl_div_err x y :
  0 < x -> 0 < y ->
  x * (1 - eps) <= fl (x / y) * y <= x * (1 + eps).
Proof.
  intros Hx Hy.
  assert (Ht : 0 < x / y) by (apply Qlt_shift_div_l; lra).
  pose proof (fl_err _ Ht) as [Hlo Hhi].
  assert (E : x / y * y == x) by (field; lra).
  set (t := x / y) in *. set (f := fl t) in *. eps_const.
  split; nra.
Qed.

Lemma to_int_nonneg x : 0 <= x -> to_int x = Qfloor x.
Proof.
  intros Hx. unfold to_int.
  destruct (Qle_bool 0 x) eqn:E; [reflexivity|].
  apply Qle_bool_iff in Hx. congruence.
Qed.

Lemma to_int_bounds x n :
  0 <= x -> x < inject_Z (n + 1) -> (0 <= to_int x <= n)%Z.
Proof.
  intros H0 Hn. rewrite to_int_nonneg by assumption. split.
  - change 0%Z with (Qfloor 0). apply Qfloor_resp_le. assumption.
  - pose proof (Qfloor_le x) as Hf.
    assert (Hlt : inject_Z (Qfloor x) < inject_Z (n + 1)) by lra.
    rewrite <- Zlt_Qlt in Hlt. lia.
Qed.

Lemma gtb_true x y : gtb x y = true <-> y < x.
Proof.
  unfold gtb. rewrite negb_true_iff. split; intros H.
  - apply Qnot_le_lt. intros Hle. apply Qle_bool_iff in Hle. congruence.
  - destruct (Qle_bool x y) eqn:E; [|reflexivity].
    apply Qle_bool_iff in E. lra.
Qed.

Lemma gtb_false x y : gtb x y = false <-> x <= y.
Proof.
  unfold gtb. rewrite negb_false_iff. apply Qle_bool_iff.
Qed.

End PyFloatFacts.

(** ** The resize arithmetic *)

Section ResizeBounds.

Local Open Scope Q_scope.
Import PyFloat PyFloatFacts.

Variables w h W H : Z.
Hypothesis Hw : pil_dim w.
Hypothesis Hh : pil_dim h.
Hypothesis HW : pil_dim W.
Hypothesis HH : pil_dim H.

Let qw := inject_Z w.
Let qh := inject_Z h.
Let qW := inject_Z W.
Let qH := inject_Z H.

Lemma dims_Q :
  (0 < qw <= 2147483648) /\ (0 < qh <= 2147483648) /\
  (0 < qW <= 2147483648) /\ (0 < qH <= 2147483648).
Proof.
  unfold pil_dim in *. change (2 ^ 31)%Z with 2147483648%Z in *.
  unfold qw, qh, qW, qH.
  repeat split;
    first [ change 0 with (inject_Z 0); rewrite <- Zlt_Qlt; lia
          | change 2147483648 with (inject_Z 2147483648); rewrite <- Zle_Qle; lia ].
Qed.


Let a := fl (qw / qh).
Let b := fl (qW / qH).

Lemma aspect_err : qw * (1 - eps) <= a * qh <= qw * (1 + eps).
Proof. destruct dims_Q as (?&?&?&?). apply fl_div_err; lra. Qed.

Lemma box_err : qW * (1 - eps) <= b * qH <= qW * (1 + eps).
Proof. destruct dims_Q as (?&?&?&?). apply fl_div_err; lra. Qed.

Lemma aspect_pos : 0 < a.
Proof.
  destruct dims_Q as (?&?&?&?). apply fl_pos_gt.
  apply Qlt_shift_div_l; lra.
Qed.

Lemma box_pos : 0 < b.
Proof.
  destruct dims_Q as (?&?&?&?). apply fl_pos_gt.
  apply Qlt_shift_div_l; lra.
Qed.

(** On sizes in range no division by zero happens, and the function is the
    two-armed conditional of the source. *)
Lemma resize_dims_eq :
  resize_dims w h W H =
  Some (if gtb a b
        then (W, to_int (fl (of_int W / a)))
        else (to_int (mul (of_int H) a), H)).
Proof.
  unfold resize_dims, int_truediv, div.
  assert (h <> 0 /\ H <> 0)%Z as [Eh EH] by (unfold pil_dim in *; lia).
  apply Z.eqb_neq in Eh, EH. rewrite Eh, EH.
  fold qw qh qW qH. fold a b.
  destruct (gtb a b); [|reflexivity].
  destruct (Qeq_bool a 0) eqn:E; [|reflexivity].
  apply Qeq_bool_iff in E. pose proof aspect_pos. lra.
Qed.



(** A very wide image: the width-constrained arm is taken and the height
    truncates to zero. *)
Lemma wide_image_branch :
  qW / qH < qw / qh -> (W * h < w)%Z -> b < a.
Proof.
  intros Hratio Hwide.
  destruct dims_Q as (Hqw & Hqh & HqW & HqH).
  pose proof aspect_err as [Ha _]. pose proof box_err as [_ Hb].
  assert (HP : qW * qh + 1 <= qw).
  { unfold qW, qh, qw. rewrite <- inject_Z_mult.
    change 1 with (inject_Z 1). rewrite <- inject_Z_plus, <- Zle_Qle. lia. }
  assert (Hcross : qW * qh < qw * qH).
  { apply Qmult_lt_r with (z := / qH); [apply Qinv_lt_0_compat; lra|].
    apply Qmult_lt_r with (z := / qh); [apply Qinv_lt_0_compat; lra|].
    assert (E1 : qW * qh * / qH * / qh == qW / qH) by (field; lra).
    assert (E2 : qw * qH * / qH * / qh == qw / qh) by (field; lra).
    rewrite E1, E2. assumption. }
  assert (HQ : qW * qh + 1 <= qw * qH).
  { unfold qW, qh, qw, qH in *. rewrite <- !inject_Z_mult in *.
    change 1 with (inject_Z 1). rewrite <- inject_Z_plus, <- Zle_Qle.
    rewrite <- Zlt_Qlt in Hcross. lia. }
  apply Qmult_lt_r with (z := qh * qH); [apply Qmult_lt_0_compat; lra|].
  assert (H1 : b * qH * qh <= qW * (1 + eps) * qh)
    by (apply Qmult_le_compat_r; lra).
  assert (H2 : qw * (1 - eps) * qH <= a * qh * qH)
    by (apply Qmult_le_compat_r; lra).
  assert (E1 : b * (qh * qH) == b * qH * qh) by ring.
  assert (E2 : a * (qh * qH) == a * qh * qH) by ring.
  rewrite E1, E2.
  apply Qle_lt_trans with (qW * (1 + eps) * qh); [assumption|].
  apply Qlt_le_trans with (qw * (1 - eps) * qH); [|assumption].
  assert (E3 : qW * (1 + eps) * qh == qW * qh * (1 + eps)) by ring.
  assert (E4 : qw * (1 - eps) * qH == qw * qH * (1 - eps)) by ring.
  rewrite E3, E4.
  set (P := qW * qh) in *. set (Q := qw * qH) in *.
  eps_const. lra.
Qed.

Lemma wide_image_height :
  (W * h < w)%Z -> to_int (fl (of_int W / a)) = 0%Z.
Proof.
  intros Hwide.
  destruct dims_Q as (Hqw & Hqh & HqW & HqH).
  pose proof aspect_pos as Ha. pose proof aspect_err as [Ha' _].
  assert (HP : qW * qh + 1 <= qw).
  { unfold qW, qh, qw. rewrite <- inject_Z_mult.
    change 1 with (inject_Z 1). rewrite <- inject_Z_plus, <- Zle_Qle. lia. }
  assert (HfW : 0 < of_int W) by (apply fl_pos_gt; apply HqW).
  pose proof (fl_err qW (proj1 HqW)) as [_ HfW'].
  change (fl qW) with (of_int W) in HfW'.
  set (r := of_int W / a).
  assert (Hr : 0 < r) by (apply Qlt_shift_div_l; lra).
  assert (Er : r * a == of_int W) by (unfold r; field; lra).
  pose proof (fl_err r Hr) as [_ Hhi].
  assert (Hs : r * qw * (1 - eps) <= (qw - 1) * (1 + eps)).
  { apply Qle_trans with (r * (a * qh)).
    - assert (E : r * qw * (1 - eps) == r * (qw * (1 - eps))) by ring.
      rewrite E. apply Qmult_le_l; assumption.
    - assert (E : r * (a * qh) == of_int W * qh) by (rewrite <- Er; ring).
      rewrite E.
      apply Qle_trans with (qW * (1 + eps) * qh).
      + apply Qmult_le_compat_r; lra.
      + assert (E' : qW * (1 + eps) * qh == qW * qh * (1 + eps)) by ring.
        rewrite E'. apply Qmult_le_compat_r; [lra|]. eps_const. lra. }
  assert (Hlt : fl r < 1).
  { apply Qmult_lt_r with (z := qw); [lra|].
    apply Qle_lt_trans with (r * (1 + eps) * qw).
    - apply Qmult_le_compat_r; lra.
    - assert (E : r * (1 + eps) * qw == r * qw * (1 + eps)) by ring.
      rewrite E. set (s := r * qw) in *. eps_const. lra. }
  assert (Hge : 0 <= fl r) by (apply Qlt_le_weak, fl_pos_gt; assumption).
  pose proof (to_int_bounds (fl r) 0 Hge Hlt). lia.
Qed.
End ResizeBounds.



(** For sizes in range with [w/h > W/H] and [W*h/w < 1] the
    width-constrained arm is taken and the computed height is 0. *)
Lemma resize_dims_zero_height (w h W H : Z) :
  pil_dim w -> pil_dim h -> pil_dim W -> pil_dim H ->
  (inject_Z W / inject_Z H < inject_Z w / inject_Z h)%Q ->
  (inject_Z W * inject_Z h / inject_Z w < 1)%Q ->
  resize_dims w h W H = Some (W, 0).
Proof.
  intros Hw Hh HW HH Hratio Hsmall.
  assert (Hwide : W * h < w).
  { assert (Hq : (0 < inject_Z w)%Q).
    { change 0%Q with (inject_Z 0). rewrite <- Zlt_Qlt. unfold pil_dim in Hw. lia. }
    assert (E : (inject_Z W * inject_Z h / inject_Z w * inject_Z w
                 == inject_Z W * inject_Z h)%Q) by (field; lra).
    apply (Qmult_lt_r _ _ (inject_Z w)) in Hsmall; [|assumption].
    rewrite E, Qmult_1_l, <- inject_Z_mult in Hsmall.
    rewrite <- Zlt_Qlt in Hsmall. assumption. }
  rewrite (resize_dims_eq w h W H Hw Hh HW HH).
  pose proof (wide_image_branch w h W H Hw Hh HW HH Hratio Hwide) as Hb.
  apply PyFloatFacts.gtb_true in Hb. rewrite Hb.
  rewrite (wide_image_height w h W H Hw Hh HW HH Hwide). reflexivity.
Qed.

Lemma sample_resample_laws : resize_laws sample_resample.
Proof.
  constructor; unfold sample_resample.
  - intros r s out H. destruct (_ && _); [|discriminate H].
    injection H as <-. reflexivity.
  - intros r s H.
    destruct (Z.ltb_spec 0 (fst s)); destruct (Z.ltb_spec 0 (snd s));
      try reflexivity; lia.
Qed.



(** The resize does return on that input, with an 800x400 raster. *)
Example resize_2000x1000_returns :
  option_map size
    (resize_image_content sample_resample
       (ImgRGB (2000, 1000) (fun _ _ => (10, 20, 30))) 800 600)
  = Some (800, 400).
Proof. vm_compute. reflexivity. Qed.


(** Past the range of C ints the computed size can leave the box: a 3x1
    image in a box of height 2^53 + 3 and three times that width. *)
Example resize_leaves_huge_box :
  resize_dims 3 1 (3 * (2 ^ 53 + 3)) (2 ^ 53 + 3)
  = Some (3 * (2 ^ 53 + 3) + 3, 2 ^ 53 + 3).
Proof. vm_compute. reflexivity. Qed.

(** C10, as amended: when [w/h > W/H] and [W*h/w < 1], all four sizes being
    positive, the computed height is 0: the size handed to Pillow's resize
    is [(W, 0)], which Pillow rejects, so the resize raises and returns no
    raster. *)
Theorem resize_zero_height_raises
  (resample : raster -> Z * Z -> option raster) (img : raster) (W H : Z) :
  resize_laws resample ->
  pil_dim (fst (size img)) -> pil_dim (snd (size img)) ->
  pil_dim W -> pil_dim H ->
  (inject_Z W / inject_Z H
   < inject_Z (fst (size img)) / inject_Z (snd (size img)))%Q ->
  (inject_Z W * inject_Z (snd (size img)) / inject_Z (fst (size img)) < 1)%Q ->
  resize_dims (fst (size img)) (snd (size img)) W H = Some (W, 0) /\
  resize_image_content resample img W H = None.
Proof.
  intros laws Hw Hh HW HH Hratio Hsmall.
  pose proof (resize_dims_zero_height _ _ _ _ Hw Hh HW HH Hratio Hsmall) as Hr.
  split; [assumption|].
  unfold resize_image_content. rewrite Hr.
  apply (resize_rejects_empty resample laws). right. simpl. lia.
Qed.

Lemma resize_zero_height_raises_witness :
  resize_dims 10000 1 800 600 = Some (800, 0) /\
  resize_image_content sample_resample
    (ImgRGB (10000, 1) (fun _ _ => (10, 20, 30))) 800 600 = None.
Proof.
  apply (resize_zero_height_raises sample_resample
           (ImgRGB (10000, 1) (fun _ _ => (10, 20, 30))) 800 600
           sample_resample_laws);
    try (unfold pil_dim; simpl; lia); reflexivity.
Defined.

(** C10, as stated, fails on its own example: no raster is returned for a
    10000x1 image in the 800x600 box, with or without a zero dimension. *)
Lemma resize_zero_height_returns_no_raster :
  ~ (exists resample out,
       resize_laws resample /\
       resize_image_content resample
         (ImgRGB (10000, 1) (fun _ _ => (10, 20, 30))) 800 600 = Some out).
Proof.
  intros (resample & out & laws & Hout).
  unfold resize_image_content in Hout.
  assert (E : resize_dims (fst (size (ImgRGB (10000, 1) (fun _ _ => (10, 20, 30)))))
                (snd (size (ImgRGB (10000, 1) (fun _ _ => (10, 20, 30)))))
                800 600 = Some (800, 0)) by (vm_compute; reflexivity).
  rewrite E in Hout.
  rewrite (resize_rejects_empty resample laws) in Hout; [discriminate Hout|].
  right. simpl. lia.
Qed.

(** C1: the sizes are computed in binary64 and truncated, and the result is
    not always the exact floor: a 2000x55 image in the default 800x600 box
    gets height 21 where [floor (800*55/2000)] is 22, and a 1x49 image in a
    1x49 box gets width 0 where [floor (49*1/49)] is 1. *)
Theorem resize_differs_from_exact_floor :
  resize_dims 2000 55 800 600 = Some (800, 21) /\
  resize_spec 2000 55 800 600 = (800, 22) /\
  resize_dims 1 49 1 49 = Some (0, 49) /\
  resize_spec 1 49 1 49 = (1, 49).
Proof. repeat split; vm_compute; reflexivity. Qed.

(** ** Strings *)

Module PyStrFacts.

Import PyStr.
Local Open Scope string_scope.

Lemma append_nil_r (s : string) : s ++ "" = s.
Proof. induction s; simpl; congruence. Qed.

Lemma append_assoc (a b c : string) : (a ++ b) ++ c = a ++ (b ++ c).
Proof. induction a; simpl; congruence. Qed.

Lemma length_append (a b : string) :
  String.length (a ++ b) = (String.length a + String.length b)%nat.
Proof. induction a; simpl; congruence. Qed.

Lemma substring_rest (s : string) : substring 0 (String.length s) s = s.
Proof. induction s; simpl; congruence. Qed.

(** Cutting a string at any index loses nothing. *)
Lemma substring_split (k : nat) (s : string) :
  substring 0 k s ++ substring k (String.length s - k) s = s.
Proof.
  revert k. induction s as [|c s IH]; intros [|k]; simpl; try reflexivity.
  - f_equal. apply substring_rest.
  - f_equal. apply IH.
Qed.

Lemma take_drop (i : Z) (s : string) : take i s ++ drop i s = s.
Proof. apply substring_split. Qed.

Lemma substring_suffix (stem tail : string) :
  substring (String.length stem) (String.length tail) (stem ++ tail) = tail.
Proof.
  induction stem as [|c stem IH]; simpl.
  - apply substring_rest.
  - apply IH.
Qed.

Lemma length_substring_tail (k : nat) (s : string) :
  (k <= String.length s)%nat ->
  String.length (substring k (String.length s - k) s) = (String.length s - k)%nat.
Proof.
  revert k. induction s as [|c s IH]; intros [|k] Hk; simpl in *; try lia.
  - f_equal. rewrite substring_rest. reflexivity.
  - apply IH. lia.
Qed.

(** [endswith] decides the suffix relation. *)
Lemma endswith_spec (s suffix : string) :
  endswith s suffix = true <-> exists stem, s = stem ++ suffix.
Proof.
  unfold endswith. rewrite andb_true_iff, Nat.leb_le, String.eqb_eq. split.
  - intros [Hle Hsub].
    exists (substring 0 (String.length s - String.length suffix) s).
    rewrite <- Hsub at 2.
    pose proof (substring_split (String.length s - String.length suffix) s) as E.
    replace (String.length s - (String.length s - String.length suffix))%nat
      with (String.length suffix) in E by lia.
    symmetry. exact E.
  - intros [stem ->]. rewrite length_append. split; [lia|].
    replace (String.length stem + String.length suffix - String.length suffix)%nat
      with (String.length stem) by lia.
    apply substring_suffix.
Qed.

Lemma lower_append (a b : string) : lower (a ++ b) = lower a ++ lower b.
Proof. induction a; simpl; congruence. Qed.

Lemma length_lower (s : string) : String.length (lower s) = String.length s.
Proof. induction s; simpl; congruence. Qed.

Lemma lower_substring (n m : nat) (s : string) :
  lower (substring n m s) = substring n m (lower s).
Proof.
  revert n m. induction s as [|c s IH]; intros [|n] [|m]; simpl;
    try reflexivity; try (f_equal; apply IH); apply IH.
Qed.

End PyStrFacts.

(** ** The extension filter *)

Lemma endswith_lower_ci (key ext : string) :
  PyStr.endswith (PyStr.lower key) ext = true <-> ends_with_ci key ext.
Proof.
  rewrite PyStrFacts.endswith_spec. unfold ends_with_ci. split.
  - intros [stem E].
    set (k := (String.length key - String.length ext)%nat).
    exists (substring 0 k key), (substring k (String.length key - k) key).
    split; [symmetry; apply PyStrFacts.substring_split|].
    assert (Hlen : String.length key
                   = (String.length stem + String.length ext)%nat).
    { rewrite <- PyStrFacts.length_lower, E. apply PyStrFacts.length_append. }
    rewrite PyStrFacts.lower_substring, E.
    replace k with (String.length stem) by (unfold k; lia).
    replace (String.length key - String.length stem)%nat
      with (String.length ext) by lia.
    apply PyStrFacts.substring_suffix.
  - intros (stem & tail & -> & <-).
    exists (PyStr.lower stem). apply PyStrFacts.lower_append.
Qed.

Lemma is_image_file_spec (key : string) :
  is_image_file key = true <->
  exists ext, In ext image_extensions /\ ends_with_ci key ext.
Proof.
  unfold is_image_file. rewrite existsb_exists.
  split; intros (ext & Hin & H); exists ext; split; try assumption;
    apply endswith_lower_ci; assumption.
Qed.

(** ** The key derivation *)

Lemma split_nonempty (sep : ascii) (s : string) : PyStr.split sep s <> [].
Proof.
  induction s as [|c s IH]; simpl; [discriminate|].
  destruct (Ascii.eqb c sep); [discriminate|].
  destruct (PyStr.split sep s); [contradiction|discriminate].
Qed.

Lemma split_no_sep (sep : ascii) (s : string) :
  PyStr.contains sep s = false -> PyStr.split sep s = [s].
Proof.
  induction s as [|c s IH]; simpl; [reflexivity|].
  intros H. apply orb_false_iff in H as [Hc Hs].
  rewrite Hc, (IH Hs). reflexivity.
Qed.

Lemma split_append (sep : ascii) (dir file : string) :
  PyStr.contains sep file = false ->
  PyStr.split sep (dir ++ String sep file) = PyStr.split sep dir ++ [file].
Proof.
  intros Hf. induction dir as [|c dir IH]; simpl.
  - rewrite Ascii.eqb_refl, (split_no_sep _ _ Hf). reflexivity.
  - destruct (Ascii.eqb c sep); rewrite IH; [reflexivity|].
    pose proof (split_nonempty sep dir) as Hne.
    destruct (PyStr.split sep dir); [contradiction|reflexivity].
Qed.

Lemma join_split (sep : ascii) (s : string) :
  PyStr.join (String sep "") (PyStr.split sep s) = s.
Proof.
  induction s as [|c s IH]; simpl; [reflexivity|].
  destruct (Ascii.eqb c sep) eqn:E.
  - apply Ascii.eqb_eq in E. subst c.
    pose proof (split_nonempty sep s) as Hne.
    destruct (PyStr.split sep s) eqn:Es; [contradiction|].
    simpl. f_equal. exact IH.
  - pose proof (split_nonempty sep s) as Hne.
    destruct (PyStr.split sep s) as [|x xs] eqn:Es; [contradiction|].
    destruct xs; simpl in *; congruence.
Qed.

Lemma splitext_concat (p : string) :
  (fst (splitext p) ++ snd (splitext p))%string = p.
Proof.
  unfold splitext. destruct (_ && _); simpl.
  - apply PyStrFacts.take_drop.
  - apply PyStrFacts.append_nil_r.
Qed.

(** The derivation on a key with a directory part [dir] and a file name
    [file]: the prefix goes before the file name; the directory and its
    slash are kept when the directory is not empty. *)
Lemma generate_destination_key_dir (dir file : string) :
  PyStr.contains "/" file = false ->
  generate_destination_key (dir ++ "/" ++ file) =
  if String.eqb dir "" then ("processed-" ++ file)%string
  else (dir ++ "/" ++ "processed-" ++ file)%string.
Proof.
  intros Hf. unfold generate_destination_key.
  change ("/" ++ file)%string with (String "/" file).
  rewrite (split_append _ _ _ Hf).
  rewrite last_last, removelast_last.
  assert (Hlen : (1 <? Z.of_nat (List.length (PyStr.split "/" dir ++ [file])))
                 = true).
  { apply Z.ltb_lt. rewrite length_app. simpl.
    pose proof (split_nonempty "/" dir).
    destruct (PyStr.split "/" dir); [contradiction|simpl; lia]. }
  rewrite Hlen. change "/"%string with (String "/" "") at 1.
  rewrite join_split.
  pose proof (splitext_concat file) as E.
  destruct (splitext file) as [name ext]. simpl in E. rewrite E.
  destruct (String.eqb dir ""); reflexivity.
Qed.

Lemma generate_destination_key_flat (key : string) :
  PyStr.contains "/" key = false ->
  generate_destination_key key = ("processed-" ++ key)%string.
Proof.
  intros Hf. unfold generate_destination_key.
  rewrite (split_no_sep _ _ Hf). simpl.
  pose proof (splitext_concat key) as E.
  destruct (splitext key) as [name ext]. simpl in E. rewrite E. reflexivity.
Qed.

(** ** The anchor table *)

(** C3: the five anchors and the fallback of the anchor lookup. *)
Theorem watermark_anchor_coordinates (img_w img_h tw th : Z) :
  watermark_xy "top-left" img_w img_h tw th = (20, 20) /\
  watermark_xy "top-right" img_w img_h tw th = (img_w - tw - 20, 20) /\
  watermark_xy "bottom-left" img_w img_h tw th = (20, img_h - th - 20) /\
  watermark_xy "bottom-right" img_w img_h tw th
    = (img_w - tw - 20, img_h - th - 20) /\
  watermark_xy "center" img_w img_h tw th
    = ((img_w - tw) / 2, (img_h - th) / 2) /\
  forall position : string,
    ~ In position ["top-left"; "top-right"; "bottom-left"; "bottom-right";
                   "center"]%string ->
    watermark_xy position img_w img_h tw th
      = (img_w - tw - 20, img_h - th - 20).
Proof.
  repeat split; try reflexivity.
  intros position Hnot. unfold watermark_xy, position_map. simpl in Hnot.
  cbn [dict_get].
  repeat match goal with
  | |- context [String.eqb position ?k] =>
    destruct (String.eqb_spec position k) as [->|_];
      [exfalso; apply Hnot; tauto|]
  end.
  reflexivity.
Qed.

Lemma watermark_anchor_coordinates_witness :
  watermark_xy "middle" 1000 1000 100 30 = (880, 950).
Proof.
  apply (watermark_anchor_coordinates 1000 1000 100 30).
  simpl. intros H. repeat destruct H as [H|H]; try discriminate H; exact H.
Defined.

Example anchors_1000x1000 :
  watermark_xy "bottom-right" 1000 1000 100 30 = (880, 950) /\
  watermark_xy "top-left" 1000 1000 100 30 = (20, 20) /\
  watermark_xy "center" 1000 1000 100 30 = (450, 485).
Proof. repeat split. Qed.

(** ** The format dispatch *)

(** C5: the recognised formats keep their format, anything else becomes
    JPEG, and only a JPEG [save] gets the quality; every [save] asks for
    optimisation. *)
Theorem encoder_dispatch (quality : Z) :
  (forall f : string,
    In f ["JPEG"; "PNG"; "GIF"; "BMP"; "WEBP"]%string ->
    output_format (Some f) = f) /\
  output_format (Some "JPG"%string) = "JPEG"%string /\
  output_format None = "JPEG"%string /\
  (forall f : string,
    ~ In f ["JPEG"; "JPG"; "PNG"; "GIF"; "BMP"; "WEBP"]%string ->
    output_format (Some f) = "JPEG"%string) /\
  (forall original_format,
    output_format original_format = "JPEG"%string ->
    encoder_call original_format quality =
    {| save_format := "JPEG"; save_quality := Some quality;
       save_optimize := Some true |}) /\
  (forall original_format,
    output_format original_format <> "JPEG"%string ->
    encoder_call original_format quality =
    {| save_format := output_format original_format; save_quality := None;
       save_optimize := Some true |}).
Proof.
  repeat split.
  - intros f Hin. simpl in Hin.
    repeat destruct Hin as [<-|Hin]; try reflexivity. contradiction.
  - intros f Hnot. unfold output_format, format_map. simpl in Hnot.
    cbn [dict_get].
    repeat match goal with
    | |- context [String.eqb f ?k] =>
      destruct (String.eqb_spec f k) as [->|_];
        [exfalso; apply Hnot; tauto|]
    end.
    reflexivity.
  - intros fmt E. unfold encoder_call. rewrite E. reflexivity.
  - intros fmt E. unfold encoder_call.
    destruct (String.eqb_spec (output_format fmt) "JPEG"); [contradiction|].
    reflexivity.
Qed.

Lemma encoder_dispatch_witness :
  output_format (Some "PNG"%string) = "PNG"%string /\
  output_format (Some "TIFF"%string) = "JPEG"%string /\
  encoder_call (Some "TIFF"%string) 85 =
    {| save_format := "JPEG"; save_quality := Some 85;
       save_optimize := Some true |} /\
  encoder_call (Some "PNG"%string) 85 =
    {| save_format := "PNG"; save_quality := None;
       save_optimize := Some true |}.
Proof.
  destruct (encoder_dispatch 85) as (H1 & _ & _ & H4 & H5 & H6).
  refine (conj _ (conj _ (conj _ _))).
  - apply H1. simpl. tauto.
  - apply H4. simpl. intros H.
    repeat destruct H as [H|H]; try discriminate H; exact H.
  - apply H5. reflexivity.
  - apply (H6 (Some "PNG"%string)). discriminate.
Defined.

(** ** The record loop *)

Section HandlerFacts.

Variable cfg : config.
Variable svc : services.

Lemma loop_body_well_formed (r : record) (w : world) :
  well_formed r -> snd (loop_body cfg svc r w) = None.
Proof.
  destruct r as [[bucket raw]|e]; simpl; [intros _|contradiction].
  destruct (is_image_file _); simpl; [|reflexivity].
  destruct (get_object svc _ _); [|reflexivity].
  destruct (process_image svc _ _); [|reflexivity].
  destruct (put_object svc _ _ _ _); reflexivity.
Qed.

(** The calls already made stay in place: the body only appends. *)
Lemma loop_body_calls (r : record) (w : world) :
  exists more, calls (fst (loop_body cfg svc r w)) = calls w ++ more.
Proof.
  destruct r as [[bucket raw]|e]; simpl.
  - destruct (is_image_file _); simpl; [|exists []; symmetry; apply app_nil_r].
    destruct (get_object svc _ _); [|eexists; reflexivity].
    destruct (process_image svc _ _);
      [|eexists; simpl; rewrite <- app_assoc; reflexivity].
    destruct (put_object svc _ _ _ _);
      eexists; simpl; rewrite <- !app_assoc; reflexivity.
  - exists []. symmetry. apply app_nil_r.
Qed.

Lemma for_records_calls (records : list record) (w : world) :
  exists more, calls (fst (for_records cfg svc records w)) = calls w ++ more.
Proof.
  revert w. induction records as [|r rest IH]; intros w; simpl.
  - exists []. symmetry. apply app_nil_r.
  - pose proof (loop_body_calls r w) as [m1 E1].
    destruct (loop_body cfg svc r w) as [w' [e|]]; simpl in *.
    + exists m1. exact E1.
    + destruct (IH w') as [m2 E2]. exists (m1 ++ m2).
      rewrite E2, E1. symmetry. apply app_assoc.
Qed.

Lemma for_records_well_formed (records : list record) (w : world) :
  Forall well_formed records -> snd (for_records cfg svc records w) = None.
Proof.
  intros Hwf. revert w. induction Hwf as [|r rest Hr _ IH]; intros w; simpl.
  - reflexivity.
  - pose proof (loop_body_well_formed r w Hr) as E.
    destruct (loop_body cfg svc r w) as [w' o]. simpl in E. subst o. apply IH.
Qed.

(** After records whose handling raised nothing out of the body, the loop
    goes on with the remaining records. *)
Lemma for_records_app (before rest : list record) (w : world) :
  Forall well_formed before ->
  for_records cfg svc (before ++ rest) w =
  for_records cfg svc rest (fst (for_records cfg svc before w)).
Proof.
  intros Hwf. revert w. induction Hwf as [|r l Hr _ IH]; intros w; simpl.
  - reflexivity.
  - pose proof (loop_body_well_formed r w Hr) as E.
    destruct (loop_body cfg svc r w) as [w' o]. simpl in E. subst o. apply IH.
Qed.

(** An image key is read, whatever happens afterwards. *)
Lemma loop_body_reads (bucket raw : string) (w : world) :
  is_image_file (unquote_plus svc raw) = true ->
  In (GetObject bucket (unquote_plus svc raw))
     (calls (fst (loop_body cfg svc (Ok (bucket, raw)) w))).
Proof.
  intros Himg. simpl. rewrite Himg. simpl.
  destruct (get_object svc _ _); simpl.
  - destruct (process_image svc _ _); simpl.
    + destruct (put_object svc _ _ _ _); simpl;
        rewrite !in_app_iff; simpl; tauto.
    + rewrite !in_app_iff; simpl; tauto.
  - rewrite !in_app_iff; simpl; tauto.
Qed.

(** A key that is not an image key causes no call at all. *)
Lemma loop_body_skips (bucket raw : string) (w : world) :
  is_image_file (unquote_plus svc raw) = false ->
  loop_body cfg svc (Ok (bucket, raw)) w =
  (print ("Skipping non-image file: " ++ unquote_plus svc raw)
     (print ("Processing image: " ++ unquote_plus svc raw
             ++ " from bucket: " ++ bucket) w), None).
Proof. intros Himg. simpl. rewrite Himg. reflexivity. Qed.

(** A record whose three steps succeed is uploaded under the derived key. *)
Lemma loop_body_uploads (bucket raw content processed : string) (w : world) :
  let key := unquote_plus svc raw in
  is_image_file key = true ->
  get_object svc bucket key = Ok content ->
  process_image svc content cfg = Ok processed ->
  In (PutObject (DESTINATION_BUCKET cfg) (generate_destination_key key)
        processed (get_content_type key))
     (calls (fst (loop_body cfg svc (Ok (bucket, raw)) w))).
Proof.
  intros key Himg Hget Hproc. subst key. simpl.
  rewrite Himg. simpl. rewrite Hget, Hproc.
  destruct (put_object svc _ _ _ _); simpl; rewrite !in_app_iff; simpl; tauto.
Qed.

Lemma for_records_keeps (c : call) (r : record) (rest : list record) (w : world) :
  snd (loop_body cfg svc r w) = None ->
  In c (calls (fst (loop_body cfg svc r w))) ->
  In c (calls (fst (for_records cfg svc (r :: rest) w))).
Proof.
  intros Hnone Hin. simpl.
  destruct (loop_body cfg svc r w) as [w' o]. simpl in *. subst o.
  destruct (for_records_calls rest w') as [more E]. rewrite E.
  apply in_or_app. left. assumption.
Qed.

Lemma lambda_handler_world (records : list record) (w : world) :
  calls (fst (lambda_handler cfg svc (Ok records) w))
  = calls (fst (for_records cfg svc records w)).
Proof.
  unfold lambda_handler.
  destruct (for_records cfg svc records w) as [w' [e|]]; reflexivity.
Qed.

(** C4: a record that fails in the read, the transform or the write does not
    stop the loop: every record after records that raised nothing out of the
    body is handled, and the status is 200 unless an exception leaves the
    body, which gives 500 with its message. *)
Theorem record_failures_are_isolated :
  (forall records w,
     Forall well_formed records ->
     snd (lambda_handler cfg svc (Ok records) w) =
     {| statusCode := 200; body := "Images processed successfully" |}) /\
  (forall before bucket raw after w,
     Forall well_formed before ->
     is_image_file (unquote_plus svc raw) = true ->
     In (GetObject bucket (unquote_plus svc raw))
        (calls (fst (lambda_handler cfg svc
                       (Ok (before ++ Ok (bucket, raw) :: after)) w)))) /\
  (forall before bucket raw content processed after w,
     Forall well_formed before ->
     is_image_file (unquote_plus svc raw) = true ->
     get_object svc bucket (unquote_plus svc raw) = Ok content ->
     process_image svc content cfg = Ok processed ->
     In (PutObject (DESTINATION_BUCKET cfg)
           (generate_destination_key (unquote_plus svc raw)) processed
           (get_content_type (unquote_plus svc raw)))
        (calls (fst (lambda_handler cfg svc
                       (Ok (before ++ Ok (bucket, raw) :: after)) w)))) /\
  (forall before e after w,
     Forall well_formed before ->
     snd (lambda_handler cfg svc (Ok (before ++ Raise e :: after)) w) =
     {| statusCode := 500; body := "Error processing images: " ++ e |}) /\
  (forall e w,
     snd (lambda_handler cfg svc (Raise e) w) =
     {| statusCode := 500; body := "Error processing images: " ++ e |}).
Proof.
  refine (conj _ (conj _ (conj _ (conj _ _)))).
  - intros records w Hwf. unfold lambda_handler.
    pose proof (for_records_well_formed records w Hwf) as E.
    destruct (for_records cfg svc records w) as [w' o]. simpl in E. subst o.
    reflexivity.
  - intros before bucket raw after w Hwf Himg.
    rewrite lambda_handler_world, (for_records_app _ _ _ Hwf).
    apply for_records_keeps.
    + apply loop_body_well_formed. exact I.
    + apply loop_body_reads. assumption.
  - intros before bucket raw content processed after w Hwf Himg Hget Hproc.
    rewrite lambda_handler_world, (for_records_app _ _ _ Hwf).
    apply for_records_keeps.
    + apply loop_body_well_formed. exact I.
    + apply loop_body_uploads with (content := content); assumption.
  - intros before e after w Hwf. unfold lambda_handler.
    rewrite (for_records_app _ _ _ Hwf). reflexivity.
  - intros e w. reflexivity.
Qed.

(** C8: a key passes the filter exactly when it ends, up to letter case, in
    one of the six extensions; a key that does not pass causes no storage
    call, a key that passes is read. *)
Theorem extension_filter :
  (forall key,
     is_image_file key = true <->
     exists ext,
       In ext [".jpg"; ".jpeg"; ".png"; ".gif"; ".bmp"; ".webp"]%string /\
       ends_with_ci key ext) /\
  (forall bucket raw w,
     is_image_file (unquote_plus svc raw) = false ->
     calls (fst (loop_body cfg svc (Ok (bucket, raw)) w)) = calls w /\
     snd (loop_body cfg svc (Ok (bucket, raw)) w) = None) /\
  (forall bucket raw w,
     is_image_file (unquote_plus svc raw) = true ->
     In (GetObject bucket (unquote_plus svc raw))
        (calls (fst (loop_body cfg svc (Ok (bucket, raw)) w)))) /\
  is_image_file "scan.TIFF" = false /\
  is_image_file "folder/README" = false /\
  is_image_file "photo.JPG" = true /\
  is_image_file "photo.JpG" = true.
Proof.
  refine (conj _ (conj _ (conj _ _))).
  - apply is_image_file_spec.
  - intros bucket raw w Himg. rewrite (loop_body_skips _ _ _ Himg).
    split; reflexivity.
  - intros bucket raw w. apply loop_body_reads.
  - repeat split.
Qed.

End HandlerFacts.

Local Open Scope string_scope.

Lemma record_failures_are_isolated_witness :
  snd (lambda_handler default_config sample_services
         (Ok [Ok ("uploads", "missing.jpg"); Ok ("uploads", "a/cat.png")])
         empty_world)
  = {| statusCode := 200; body := "Images processed successfully" |} /\
  In (PutObject "resized-image-bucket-9965" "a/processed-cat.png" "a/cat.png"
        "image/png")
     (calls (fst (lambda_handler default_config sample_services
                    (Ok ([Ok ("uploads", "missing.jpg")]
                         ++ Ok ("uploads", "a/cat.png") :: [])%list)
                    empty_world))) /\
  In (GetObject "uploads" "a/cat.png")
     (calls (fst (lambda_handler default_config sample_services
                    (Ok ([Ok ("uploads", "missing.jpg")]
                         ++ Ok ("uploads", "a/cat.png") :: [])%list)
                    empty_world))) /\
  snd (lambda_handler default_config sample_services
         (Ok ([Ok ("uploads", "missing.jpg")]
              ++ Raise "'s3'" :: [Ok ("uploads", "a/cat.png")])%list)
         empty_world)
  = {| statusCode := 500; body := "Error processing images: 's3'" |}.
Proof.
  destruct (record_failures_are_isolated default_config sample_services)
    as (H200 & Hread & Hput & H500 & _).
  refine (conj _ (conj _ (conj _ _))).
  - apply H200. repeat constructor.
  - apply (Hput [Ok ("uploads", "missing.jpg")] "uploads" "a/cat.png"
             "a/cat.png" "a/cat.png")%string;
      [repeat constructor | reflexivity | reflexivity | reflexivity].
  - apply (Hread [Ok ("uploads", "missing.jpg")] "uploads" "a/cat.png")%string;
      [repeat constructor | reflexivity].
  - apply (H500 [Ok ("uploads", "missing.jpg")])%string. repeat constructor.
Defined.

Lemma extension_filter_witness :
  (exists ext,
     In ext [".jpg"; ".jpeg"; ".png"; ".gif"; ".bmp"; ".webp"]%string /\
     ends_with_ci "photo.JPG" ext) /\
  calls (fst (loop_body default_config sample_services
                (Ok ("uploads", "scan.TIFF")) empty_world)) = [] /\
  In (GetObject "uploads" "photo.JPG")
     (calls (fst (loop_body default_config sample_services
                    (Ok ("uploads", "photo.JPG")) empty_world))).
Proof.
  destruct (extension_filter default_config sample_services)
    as (Hiff & Hskip & Hread & _).
  refine (conj _ (conj _ _)).
  - apply Hiff. reflexivity.
  - apply (Hskip "uploads" "scan.TIFF" empty_world)%string. reflexivity.
  - apply (Hread "uploads" "photo.JPG" empty_world)%string. reflexivity.
Defined.

(** ** The key derivation on concrete keys *)

(** C9: the prefix goes before the file name and the directory is kept,
    twice over when the derivation is applied twice; a key whose directory
    part is empty loses its leading slash. *)
Theorem key_derivation_drops_leading_slash :
  generate_destination_key "/a.jpg" = "processed-a.jpg"%string /\
  generate_destination_key "photos/2024/a.jpg"
    = "photos/2024/processed-a.jpg"%string /\
  generate_destination_key (generate_destination_key "photos/2024/a.jpg")
    = "photos/2024/processed-processed-a.jpg"%string.
Proof. repeat split. Qed.

Lemma generate_destination_key_twice (dir file : string) :
  PyStr.contains "/" file = false ->
  dir <> ""%string ->
  generate_destination_key (generate_destination_key (dir ++ "/" ++ file))
  = (dir ++ "/" ++ "processed-processed-" ++ file)%string.
Proof.
  intros Hf Hd.
  rewrite (generate_destination_key_dir dir file Hf).
  destruct (String.eqb_spec dir ""); [contradiction|].
  rewrite (generate_destination_key_dir dir ("processed-" ++ file)).
  - destruct (String.eqb_spec dir ""); [contradiction|]. reflexivity.
  - simpl. assumption.
Qed.

(** ** The colour-mode normaliser and the watermark *)

Lemma reference_pillow_laws : pillow_laws reference_pillow.
Proof.
  constructor; simpl.
  - intros old new.
    match goal with |- ?n / 255 = _ => replace n with (old * 255) by lia end.
    apply Z.div_mul. discriminate.
  - intros old new.
    match goal with |- ?n / 255 = _ => replace n with (new * 255) by lia end.
    apply Z.div_mul. discriminate.
  - intros dst r g b. reflexivity.
Qed.

Section RasterFacts.

Variable pil : pillow.
Hypothesis laws : pillow_laws pil.

(** An opaque RGB raster passes through. *)
Lemma normalize_RGB (sz : Z * Z) (px : Z -> Z -> rgb) :
  normalize pil (ImgRGB sz px) = ImgRGB sz px.
Proof. reflexivity. Qed.

Lemma normalize_mode (img : raster) :
  In (mode img) ["RGBA"; "LA"; "P"]%string ->
  mode (normalize pil img) = "RGB"%string /\
  size (normalize pil img) = size img.
Proof.
  intros Hin. unfold normalize.
  assert (E : mode_in (mode img) ["RGBA"; "LA"; "P"]%string = true).
  { unfold mode_in. apply existsb_exists. exists (mode img).
    split; [assumption | apply String.eqb_refl]. }
  rewrite E. split; reflexivity.
Qed.

(** An RGBA raster is flattened on white under its alpha band. *)
Lemma normalize_RGBA (sz : Z * Z) (px : Z -> Z -> rgba) (x y r g b a : Z) :
  px x y = (r, g, b, a) ->
  pixel pil (normalize pil (ImgRGBA sz px)) x y =
  (blend pil a 255 r, blend pil a 255 g, blend pil a 255 b, 255).
Proof. intros E. simpl. unfold paste. simpl. rewrite E. reflexivity. Qed.

Lemma normalize_RGBA_transparent (sz : Z * Z) (px : Z -> Z -> rgba)
  (x y r g b : Z) :
  px x y = (r, g, b, 0) ->
  pixel pil (normalize pil (ImgRGBA sz px)) x y = (255, 255, 255, 255).
Proof.
  intros E. rewrite (normalize_RGBA _ _ _ _ _ _ _ _ E).
  rewrite !(blend_0 pil laws). reflexivity.
Qed.

Lemma normalize_RGBA_opaque (sz : Z * Z) (px : Z -> Z -> rgba)
  (x y r g b : Z) :
  px x y = (r, g, b, 255) ->
  pixel pil (normalize pil (ImgRGBA sz px)) x y = (r, g, b, 255).
Proof.
  intros E. rewrite (normalize_RGBA _ _ _ _ _ _ _ _ E).
  rewrite !(blend_255 pil laws). reflexivity.
Qed.

(** A palette raster is expanded through its palette first, so the alpha of
    the palette entry is the mask. *)
Lemma normalize_P (sz : Z * Z) (palette : Z -> rgba) (px : Z -> Z -> Z)
  (x y r g b a : Z) :
  palette (px x y) = (r, g, b, a) ->
  pixel pil (normalize pil (ImgP sz palette px)) x y =
  (blend pil a 255 r, blend pil a 255 g, blend pil a 255 b, 255).
Proof. intros E. simpl. unfold paste. simpl. rewrite E. reflexivity. Qed.



(** The pixel of the watermarked raster: the input pixel under the overlay
    pixel, flattened on white. *)
Lemma add_watermark_pixel img text opacity position ratio out (x y : Z) :
  add_watermark pil img text opacity position ratio = Some out ->
  pixel pil out x y =
  let c := watermark_cov pil img text position x y in
  let '(r, g, b, a) :=
    alpha_over pil (pixel pil img x y)
      (blend pil c 0 255, blend pil c 0 255, blend pil c 0 255,
       blend pil c 0 opacity) in
  (blend pil a 255 r, blend pil a 255 g, blend pil a 255 b, 255).
Proof.
  unfold add_watermark.
  destruct (PyFloatRange.int_of_product _ _); [|discriminate].
  intros H. injection H as <-.
  unfold pixel. simpl. unfold paste. simpl.
  destruct (alpha_over pil _ _) as [[[r g] b] a]. reflexivity.
Qed.


End RasterFacts.

(** C6: a raster of mode LA is pasted without a mask, so its alpha band is
    dropped and the white background is overwritten: a fully transparent
    black pixel becomes black, where the RGBA and the palette paths give
    white. *)
Theorem normalize_LA_drops_alpha (pil : pillow) :
  (forall sz px x y,
     pixel pil (normalize pil (ImgLA sz px)) x y =
     (fst (px x y), fst (px x y), fst (px x y), 255)) /\
  pixel pil (normalize pil (ImgLA (1, 1) (fun _ _ => (0, 0)))) 0 0
    = (0, 0, 0, 255) /\
  pixel reference_pillow
    (normalize reference_pillow (ImgRGBA (1, 1) (fun _ _ => (0, 0, 0, 0)))) 0 0
    = (255, 255, 255, 255).
Proof.
  refine (conj _ (conj _ _)); try reflexivity.
  intros sz px x y. simpl. unfold paste. simpl.
  destruct (px x y) as [l a]. reflexivity.
Qed.

Lemma inked_pillow_laws : pillow_laws inked_pillow.
Proof.
  constructor.
  - apply (blend_0 reference_pillow reference_pillow_laws).
  - apply (blend_255 reference_pillow reference_pillow_laws).
  - intros [[[r0 g0] b0] a0] r g b. reflexivity.
Qed.



(** Under the text the same raster does change: the covered pixel is mixed
    with white. *)
Example watermark_changes_covered_pixel :
  option_map (fun out => pixel inked_pillow out 20 20)
    (add_watermark inked_pillow (ImgRGB (40, 40) (fun _ _ => (10, 20, 30)))
       "By Ahmed_Ashraf" 200 "top-left" (Finite (3 # 10)))
  = Some (202, 204, 206, 255).
Proof. vm_compute. reflexivity. Qed.


(** ** The model against the machine *)

(** The rounding of the model is the rounding of the processor on the
    quotients and products met below. *)
Example fl_agrees_with_hw :
  option_map Qred (hw_value (PrimFloat.div (hw_of_int 1) (hw_of_int 49)))
    = Some (Qred (PyFloat.fl (1 / 49))) /\
  option_map Qred
    (hw_value (PrimFloat.mul (hw_of_int 49)
                 (PrimFloat.div (hw_of_int 1) (hw_of_int 49))))
    = Some (Qred (PyFloat.mul (PyFloat.of_int 49) (PyFloat.fl (1 / 49)))) /\
  option_map Qred (hw_value (PrimFloat.div (hw_of_int 2000) (hw_of_int 55)))
    = Some (Qred (PyFloat.fl (2000 / 55))) /\
  option_map Qred (hw_value (PrimFloat.div (hw_of_int 800) (hw_of_int 600)))
    = Some (Qred (PyFloat.fl (800 / 600))).
Proof. repeat split; vm_compute; reflexivity. Qed.

(** On the sizes used in the theorems above the model and the machine give
    the same size. *)
Example resize_dims_agrees_with_hw :
  Forall (fun '(w, h, W, H) =>
            resize_dims w h W H = Some (resize_dims_hw w h W H))
    [(2000, 55, 800, 600); (1, 49, 1, 49); (10000, 1, 800, 600);
     (2000, 1000, 800, 600); (800, 600, 800, 600); (800, 11, 800, 600);
     (11, 15, 800, 600); (1920, 1080, 800, 600); (3, 4000, 800, 600)].
Proof. repeat constructor; vm_compute; reflexivity. Qed.

(** * Further properties *)

Local Close Scope string_scope.

(** ** The resize arithmetic against the exact quotient *)

Module PyFloatOrder.
Import PyFloat PyFloatFacts.
Local Open Scope Q_scope.

Lemma two_pow_le a b : (a <= b)%Z -> two_pow a <= two_pow b.
Proof. intros H. unfold two_pow. apply Qpower_le_compat_l; [assumption|]. discriminate. Qed.

Lemma ilog2_unique x e :
  0 < x -> two_pow e <= x -> x < two_pow (e + 1) -> ilog2 x = e.
Proof.
  intros Hx Hlo Hhi.
  pose proof (ilog2_le x Hx) as Glo. pose proof (ilog2_lt x Hx) as Ghi.
  destruct (Z.lt_trichotomy (ilog2 x) e) as [H|[H|H]]; [|assumption|]; exfalso.
  - assert (two_pow (ilog2 x + 1) <= two_pow e) by (apply two_pow_le; lia). lra.
  - assert (two_pow (e + 1) <= two_pow (ilog2 x)) by (apply two_pow_le; lia). lra.
Qed.

Lemma ilog2_comp x y : 0 < x -> x == y -> ilog2 x = ilog2 y.
Proof.
  intros Hx E. symmetry. apply ilog2_unique.
  - rewrite <- E. assumption.
  - rewrite <- E. apply ilog2_le. assumption.
  - rewrite <- E. apply ilog2_lt. assumption.
Qed.

Lemma round_half_even_comp x y :
  x == y -> round_half_even x = round_half_even y.
Proof.
  intros E. unfold round_half_even.
  rewrite (Qfloor_comp _ _ E).
  assert (E' : x - inject_Z (Qfloor y) == y - inject_Z (Qfloor y))
    by (rewrite E; reflexivity).
  rewrite (Qcompare_comp _ _ E' (1 # 2) (1 # 2) (Qeq_refl _)). reflexivity.
Qed.

(** The rounding does not depend on how the rational is written. *)
Lemma fl_comp x y : 0 < x -> x == y -> fl x == fl y.
Proof.
  intros Hx E.
  assert (Hy : 0 < y) by (rewrite <- E; assumption).
  assert (Fx : fl x = fl_pos x).
  { unfold fl. destruct x as [[|p|p] d]; try reflexivity;
      unfold Qlt in Hx; simpl in Hx; lia. }
  assert (Fy : fl y = fl_pos y).
  { unfold fl. destruct y as [[|p|p] d]; try reflexivity;
      unfold Qlt in Hy; simpl in Hy; lia. }
  rewrite Fx, Fy. unfold fl_pos, ulp.
  rewrite <- (ilog2_comp x y Hx E).
  assert (Et : x / two_pow (ilog2 x - 52) == y / two_pow (ilog2 x - 52)).
  { unfold Qdiv. apply Qmult_comp; [exact E | reflexivity]. }
  rewrite (round_half_even_comp _ _ Et). reflexivity.
Qed.

End PyFloatOrder.

Section ResizeNearExact.

Import PyFloat PyFloatFacts PyFloatOrder.
Local Open Scope Q_scope.

Lemma small_dim_pil n : small_dim n -> pil_dim n.
Proof. unfold small_dim, pil_dim. intros [H1 H2]. split; [lia|].
  apply Z.lt_trans with (2 ^ 24)%Z; [assumption | reflexivity]. Qed.

Lemma small_dim_Q n : small_dim n -> 0 < inject_Z n <= 16777216.
Proof.
  unfold small_dim. change (2 ^ 24)%Z with 16777216%Z. intros [H1 H2]. split.
  - change 0 with (inject_Z 0). rewrite <- Zlt_Qlt. lia.
  - change 16777216 with (inject_Z 16777216). rewrite <- Zle_Qle. lia.
Qed.

(** Two ratios of small integers that differ are rounded to floats that
    differ the same way. *)
Lemma ratio_lt_fl (x1 y1 x2 y2 : Z) :
  small_dim x1 -> small_dim y1 -> small_dim x2 -> small_dim y2 ->
  (x1 * y2 < x2 * y1)%Z ->
  fl (inject_Z x1 / inject_Z y1) < fl (inject_Z x2 / inject_Z y2).
Proof.
  intros S1 S2 S3 S4 Hlt.
  pose proof (small_dim_Q _ S1) as Q1. pose proof (small_dim_Q _ S2) as Q2.
  pose proof (small_dim_Q _ S3) as Q3. pose proof (small_dim_Q _ S4) as Q4.
  set (a1 := inject_Z x1) in *. set (b1 := inject_Z y1) in *.
  set (a2 := inject_Z x2) in *. set (b2 := inject_Z y2) in *.
  assert (E1 : a1 * (1 - eps) <= fl (a1 / b1) * b1 <= a1 * (1 + eps))
    by (apply fl_div_err; lra).
  assert (E2 : a2 * (1 - eps) <= fl (a2 / b2) * b2 <= a2 * (1 + eps))
    by (apply fl_div_err; lra).
  set (f1 := fl (a1 / b1)) in *. set (f2 := fl (a2 / b2)) in *.
  assert (HP : a1 * b2 + 1 <= a2 * b1).
  { unfold a1, b2, a2, b1. rewrite <- !inject_Z_mult.
    change 1 with (inject_Z 1). rewrite <- inject_Z_plus, <- Zle_Qle. lia. }
  assert (HB : a1 * b2 <= 16777216 * 16777216).
  { apply Qle_trans with (16777216 * b2).
    - apply Qmult_le_compat_r; lra.
    - apply Qmult_le_l; [reflexivity | lra]. }
  apply Qmult_lt_r with (z := b1 * b2); [apply Qmult_lt_0_compat; lra|].
  assert (H1 : f1 * b1 * b2 <= a1 * (1 + eps) * b2)
    by (apply Qmult_le_compat_r; lra).
  assert (H2 : a2 * (1 - eps) * b1 <= f2 * b2 * b1)
    by (apply Qmult_le_compat_r; lra).
  assert (G1 : f1 * (b1 * b2) == f1 * b1 * b2) by ring.
  assert (G2 : f2 * (b1 * b2) == f2 * b2 * b1) by ring.
  rewrite G1, G2.
  apply Qle_lt_trans with (a1 * (1 + eps) * b2); [assumption|].
  apply Qlt_le_trans with (a2 * (1 - eps) * b1); [|assumption].
  assert (G3 : a1 * (1 + eps) * b2 == a1 * b2 * (1 + eps)) by ring.
  assert (G4 : a2 * (1 - eps) * b1 == a2 * b1 * (1 - eps)) by ring.
  rewrite G3, G4.
  set (P := a1 * b2) in *. set (R := a2 * b1) in *.
  eps_const. lra.
Qed.

(** A float within one of [n/d] in the scaled sense truncates to the floor
    of [n/d] or to one less. *)
Lemma to_int_near_quotient (n d : Z) (v : Q) :
  (0 <= n)%Z -> (0 < d)%Z -> 0 <= v ->
  inject_Z n - 1 < v * inject_Z d -> v * inject_Z d < inject_Z n + 1 ->
  (n / d - 1 <= to_int v <= n / d)%Z.
Proof.
  intros Hn Hd Hv Hlo Hhi.
  assert (Qd : 0 < inject_Z d).
  { change 0 with (inject_Z 0). rewrite <- Zlt_Qlt. assumption. }
  pose proof (Z.div_mod n d ltac:(lia)) as Hdm.
  pose proof (Z.mod_pos_bound n d Hd) as Hm.
  set (k := (n / d)%Z) in *. set (m := (n mod d)%Z) in *.
  assert (Hup : v < inject_Z (k + 1)).
  { apply Qmult_lt_r with (z := inject_Z d); [assumption|].
    apply Qlt_le_trans with (inject_Z n + 1); [assumption|].
    rewrite <- inject_Z_mult. change 1 with (inject_Z 1).
    rewrite <- inject_Z_plus, <- Zle_Qle. nia. }
  assert (Hdn : inject_Z (k - 1) <= v).
  { apply Qmult_le_r with (z := inject_Z d); [assumption|].
    apply Qle_trans with (inject_Z n - 1); [|apply Qlt_le_weak; assumption].
    rewrite <- inject_Z_mult. change 1 with (inject_Z 1).
    unfold Qminus. rewrite <- inject_Z_opp, <- inject_Z_plus, <- Zle_Qle. nia. }
  rewrite to_int_nonneg by assumption. split.
  - rewrite <- (Qfloor_Z (k - 1)). apply Qfloor_resp_le. assumption.
  - pose proof (Qfloor_le v) as Hf.
    assert (Hlt : inject_Z (Qfloor v) < inject_Z (k + 1)) by lra.
    rewrite <- Zlt_Qlt in Hlt. lia.
Qed.

Variables w h W H : Z.
Hypothesis Hw : small_dim w.
Hypothesis Hh : small_dim h.
Hypothesis HW : small_dim W.
Hypothesis HH : small_dim H.

Let qw := inject_Z w.
Let qh := inject_Z h.
Let qW := inject_Z W.
Let qH := inject_Z H.
Let a := fl (qw / qh).
Let b := fl (qW / qH).

(** The arm taken is the arm of the exact comparison. *)
Lemma resize_arm : gtb a b = (W * h <? w * H)%Z.
Proof.
  destruct (Z.ltb_spec (W * h) (w * H)) as [Hlt|Hge].
  - apply gtb_true. apply ratio_lt_fl; assumption.
  - apply gtb_false.
    destruct (Z.eq_dec (w * H) (W * h)) as [E|Hne].
    + apply Qle_lteq. right. apply fl_comp.
      * pose proof (small_dim_Q _ Hw). pose proof (small_dim_Q _ Hh).
        unfold qw, qh. apply Qlt_shift_div_l; lra.
      * unfold qw, qh, qW, qH. unfold Qeq, Qdiv, Qmult, Qinv, inject_Z.
        unfold small_dim in *.
        destruct h as [|ph|ph]; try lia. destruct H as [|pH|pH]; try lia.
        simpl. lia.
    + apply Qlt_le_weak. apply ratio_lt_fl; try assumption. lia.
Qed.


Lemma fit_width_near :
  (W * h / w - 1 <= to_int (fl (of_int W / a)) <= W * h / w)%Z.
Proof.
  pose proof (small_dim_Q _ Hw) as Qw. pose proof (small_dim_Q _ Hh) as Qh.
  pose proof (small_dim_Q _ HW) as QW.
  fold qw in Qw. fold qh in Qh. fold qW in QW.
  assert (Ea : qw * (1 - eps) <= a * qh <= qw * (1 + eps))
    by (apply fl_div_err; lra).
  assert (Ha : 0 < a) by (apply fl_pos_gt, Qlt_shift_div_l; lra).
  assert (HfW : 0 < of_int W) by (apply fl_pos_gt; apply QW).
  pose proof (fl_err qW (proj1 QW)) as EW.
  change (fl qW) with (of_int W) in EW.
  set (r := of_int W / a).
  assert (Hr : 0 < r) by (apply Qlt_shift_div_l; lra).
  assert (Er : r * (a * qh) == of_int W * qh) by (unfold r; field; lra).
  pose proof (fl_err r Hr) as Ev.
  set (v := fl r) in *.
  assert (HN : qW * qh <= 16777216 * 16777216).
  { apply Qle_trans with (16777216 * qh).
    - apply Qmult_le_compat_r; lra.
    - apply Qmult_le_l; [reflexivity | lra]. }
  assert (HN0 : 0 < qW * qh) by (apply Qmult_lt_0_compat; lra).
  assert (U1 : r * qw * (1 - eps) <= qW * qh * (1 + eps)).
  { apply Qle_trans with (r * (a * qh)).
    - assert (G : r * qw * (1 - eps) == r * (qw * (1 - eps))) by ring.
      rewrite G. apply Qmult_le_l; [assumption | lra].
    - rewrite Er.
      assert (G : qW * qh * (1 + eps) == qW * (1 + eps) * qh) by ring.
      rewrite G. apply Qmult_le_compat_r; lra. }
  assert (L1 : qW * qh * (1 - eps) <= r * qw * (1 + eps)).
  { apply Qle_trans with (r * (a * qh)).
    - rewrite Er.
      assert (G : qW * qh * (1 - eps) == qW * (1 - eps) * qh) by ring.
      rewrite G. apply Qmult_le_compat_r; lra.
    - assert (G : r * qw * (1 + eps) == r * (qw * (1 + eps))) by ring.
      rewrite G. apply Qmult_le_l; [assumption | lra]. }
  assert (U2 : v * qw <= r * qw * (1 + eps)).
  { assert (G : r * qw * (1 + eps) == r * (1 + eps) * qw) by ring.
    rewrite G. apply Qmult_le_compat_r; lra. }
  assert (L2 : r * qw * (1 - eps) <= v * qw).
  { assert (G : r * qw * (1 - eps) == r * (1 - eps) * qw) by ring.
    rewrite G. apply Qmult_le_compat_r; lra. }
  assert (Hrq : 0 < r * qw) by (apply Qmult_lt_0_compat; lra).
  apply to_int_near_quotient.
  - unfold small_dim in *. nia.
  - unfold small_dim in *. lia.
  - apply Qlt_le_weak, fl_pos_gt. assumption.
  - rewrite inject_Z_mult. fold qW qh qw.
    set (N := qW * qh) in *. set (s := r * qw) in *. eps_const. lra.
  - rewrite inject_Z_mult. fold qW qh qw.
    set (N := qW * qh) in *. set (s := r * qw) in *. eps_const. lra.
Qed.

Lemma fit_height_near :
  (H * w / h - 1 <= to_int (mul (of_int H) a) <= H * w / h)%Z.
Proof.
  pose proof (small_dim_Q _ Hw) as Qw. pose proof (small_dim_Q _ Hh) as Qh.
  pose proof (small_dim_Q _ HH) as QH.
  fold qw in Qw. fold qh in Qh. fold qH in QH.
  assert (Ea : qw * (1 - eps) <= a * qh <= qw * (1 + eps))
    by (apply fl_div_err; lra).
  assert (Ha : 0 < a) by (apply fl_pos_gt, Qlt_shift_div_l; lra).
  assert (HfH : 0 < of_int H) by (apply fl_pos_gt; apply QH).
  pose proof (fl_err qH (proj1 QH)) as EH.
  change (fl qH) with (of_int H) in EH.
  unfold mul. set (p := of_int H * a).
  assert (Hp : 0 < p) by (apply Qmult_lt_0_compat; assumption).
  assert (Ep : p * qh == of_int H * (a * qh)) by (unfold p; ring).
  pose proof (fl_err p Hp) as Ev.
  set (v := fl p) in *.
  assert (HN : qH * qw <= 16777216 * 16777216).
  { apply Qle_trans with (16777216 * qw).
    - apply Qmult_le_compat_r; lra.
    - apply Qmult_le_l; [reflexivity | lra]. }
  assert (HN0 : 0 < qH * qw) by (apply Qmult_lt_0_compat; lra).
  assert (U1 : p * qh <= qH * qw * ((1 + eps) * (1 + eps))).
  { rewrite Ep. apply Qle_trans with (of_int H * (qw * (1 + eps))).
    - apply Qmult_le_l; [assumption | lra].
    - assert (G : qH * qw * ((1 + eps) * (1 + eps))
                  == qH * (1 + eps) * (qw * (1 + eps))) by ring.
      rewrite G. apply Qmult_le_compat_r; [lra|]. eps_const. lra. }
  assert (L1 : qH * qw * ((1 - eps) * (1 - eps)) <= p * qh).
  { rewrite Ep. apply Qle_trans with (of_int H * (qw * (1 - eps))).
    - assert (G : qH * qw * ((1 - eps) * (1 - eps))
                  == qH * (1 - eps) * (qw * (1 - eps))) by ring.
      rewrite G. apply Qmult_le_compat_r; [lra|]. eps_const. lra.
    - apply Qmult_le_l; [assumption | lra]. }
  assert (U2 : v * qh <= p * qh * (1 + eps)).
  { assert (G : p * qh * (1 + eps) == p * (1 + eps) * qh) by ring.
    rewrite G. apply Qmult_le_compat_r; lra. }
  assert (L2 : p * qh * (1 - eps) <= v * qh).
  { assert (G : p * qh * (1 - eps) == p * (1 - eps) * qh) by ring.
    rewrite G. apply Qmult_le_compat_r; lra. }
  apply to_int_near_quotient.
  - unfold small_dim in *. nia.
  - unfold small_dim in *. lia.
  - apply Qlt_le_weak, fl_pos_gt. assumption.
  - rewrite inject_Z_mult. fold qH qw qh.
    set (N := qH * qw) in *. set (s := p * qh) in *. eps_const. lra.
  - rewrite inject_Z_mult. fold qH qw qh.
    set (N := qH * qw) in *. set (s := p * qh) in *. eps_const. lra.
Qed.

End ResizeNearExact.

(** For sizes below 2^24 the arm taken is the arm of the exact comparison
    [w*H > W*h]: in the wide arm the width is the bound and the height is
    the exact floor of [W*h/w] or one less; in the other arm the height is
    the bound and the width is the exact floor of [H*w/h] or one less. *)
Theorem resize_within_one_of_exact (w h W H : Z) :
  small_dim w -> small_dim h -> small_dim W -> small_dim H ->
  exists nw nh,
    resize_dims w h W H = Some (nw, nh) /\
    (W * h < w * H ->
     nw = W /\ (nh = W * h / w \/ nh = W * h / w - 1)) /\
    (w * H <= W * h ->
     nh = H /\ (nw = H * w / h \/ nw = H * w / h - 1)).
Proof.
  intros Hw Hh HW HH.
  rewrite (resize_dims_eq w h W H (small_dim_pil _ Hw) (small_dim_pil _ Hh)
             (small_dim_pil _ HW) (small_dim_pil _ HH)).
  rewrite (resize_arm w h W H Hw Hh HW HH).
  destruct (Z.ltb_spec (W * h) (w * H)) as [Hlt|Hge].
  - pose proof (fit_width_near w h W Hw Hh HW).
    eexists _, _. split; [reflexivity|]. split; [|lia].
    intros _. split; [reflexivity | lia].
  - pose proof (fit_height_near w h H Hw Hh HH).
    eexists _, _. split; [reflexivity|]. split; [lia|].
    intros _. split; [reflexivity | lia].
Qed.

Lemma resize_within_one_of_exact_witness :
  exists nw nh,
    resize_dims 2000 55 800 600 = Some (nw, nh) /\
    (800 * 55 < 2000 * 600 ->
     nw = 800 /\ (nh = 800 * 55 / 2000 \/ nh = 800 * 55 / 2000 - 1)) /\
    (2000 * 600 <= 800 * 55 ->
     nh = 600 /\ (nw = 600 * 2000 / 55 \/ nw = 600 * 2000 / 55 - 1)).
Proof.
  apply (resize_within_one_of_exact 2000 55 800 600); unfold small_dim; lia.
Defined.

(** ** Keys: the derived key, the filter and the content type *)

Module KeyFacts.

Import PyStr PyStrFacts.
Local Open Scope string_scope.

Lemma contains_append (c : ascii) (a b : string) :
  contains c (a ++ b) = contains c a || contains c b.
Proof.
  induction a as [|x a IH]; simpl; [reflexivity|].
  rewrite IH. apply orb_assoc.
Qed.

Lemma lower_ascii_slash (c : ascii) :
  Ascii.eqb (lower_ascii c) "/" = Ascii.eqb c "/".
Proof.
  destruct c as [[|] [|] [|] [|] [|] [|] [|] [|]]; reflexivity.
Qed.

Lemma contains_slash_lower (s : string) :
  contains "/" (lower s) = contains "/" s.
Proof.
  induction s as [|c s IH]; simpl; [reflexivity|].
  rewrite lower_ascii_slash, IH. reflexivity.
Qed.

(** A key has no slash, or only a leading one before its file name, or a
    directory part that is not empty. *)
Lemma key_cases (key : string) :
  contains "/" key = false \/
  (exists file, key = "/" ++ file /\ contains "/" file = false) \/
  (exists dir file,
     dir <> "" /\ key = dir ++ "/" ++ file /\ contains "/" file = false).
Proof.
  induction key as [|c key IH]; [left; reflexivity|].
  destruct IH as [Hno|[(file & -> & Hf)|(dir & file & Hd & -> & Hf)]].
  - destruct (Ascii.eqb_spec c "/") as [->|Hc].
    + right. left. exists key. split; [reflexivity | assumption].
    + left. simpl. apply Ascii.eqb_neq in Hc. rewrite Hc. assumption.
  - right. right. exists (String c ""), file.
    split; [discriminate|]. split; [reflexivity | assumption].
  - right. right. exists (String c dir), file.
    split; [discriminate|]. split; [reflexivity | assumption].
Qed.

(** A suffix without a slash lies inside the file name. *)
Lemma suffix_in_file (stem tail dir file : string) :
  stem ++ tail = dir ++ "/" ++ file ->
  contains "/" tail = false ->
  exists s, file = s ++ tail.
Proof.
  revert dir. induction stem as [|c stem IH]; intros dir E Ht; simpl in E.
  - subst tail. rewrite contains_append in Ht. simpl in Ht.
    rewrite orb_true_r in Ht. discriminate.
  - destruct dir as [|d dir]; simpl in E.
    + injection E as _ E. exists stem. symmetry. exact E.
    + injection E as _ E. apply (IH dir); assumption.
Qed.

End KeyFacts.

Import KeyFacts.

Lemma extension_no_slash (ext : string) :
  In ext image_extensions -> PyStr.contains "/" ext = false.
Proof.
  intros Hin. simpl in Hin.
  repeat destruct Hin as [<-|Hin]; try reflexivity. contradiction.
Qed.

(** The derived key of an image key is an image key again: written to the
    bucket that triggers the function, the output would be processed in
    turn. *)
Theorem destination_key_is_image_key (key : string) :
  is_image_file key = true ->
  is_image_file (generate_destination_key key) = true.
Proof.
  intros Himg. apply is_image_file_spec in Himg as (ext & Hin & stem & tail & E & Hl).
  apply is_image_file_spec. exists ext. split; [assumption|].
  assert (Ht : PyStr.contains "/" tail = false).
  { rewrite <- contains_slash_lower, Hl. apply extension_no_slash. assumption. }
  destruct (key_cases key) as [Hno|[(file & Ek & Hf)|(dir & file & Hd & Ek & Hf)]].
  - rewrite (generate_destination_key_flat key Hno), E.
    exists ("processed-" ++ stem)%string, tail.
    split; [|assumption]. symmetry. apply PyStrFacts.append_assoc.
  - rewrite Ek. change ("/" ++ file)%string with ("" ++ "/" ++ file)%string.
    rewrite (generate_destination_key_dir "" file Hf). simpl String.eqb. cbv iota.
    rewrite E in Ek. change ("/" ++ file)%string with ("" ++ "/" ++ file)%string in Ek.
    destruct (suffix_in_file _ _ _ _ Ek Ht) as [s ->].
    exists ("processed-" ++ s)%string, tail.
    split; [|assumption]. symmetry. apply PyStrFacts.append_assoc.
  - rewrite Ek, (generate_destination_key_dir dir file Hf).
    destruct (String.eqb_spec dir ""); [contradiction|].
    rewrite E in Ek.
    destruct (suffix_in_file _ _ _ _ Ek Ht) as [s ->].
    exists (dir ++ "/" ++ "processed-" ++ s)%string, tail.
    split; [|assumption].
    rewrite !PyStrFacts.append_assoc. reflexivity.
Qed.

(** The derived key in the three cases of a key. *)
Lemma destination_key_cases (key : string) :
  (PyStr.contains "/" key = false /\
   generate_destination_key key = ("processed-" ++ key)%string) \/
  (exists file,
     key = ("/" ++ file)%string /\ PyStr.contains "/" file = false /\
     generate_destination_key key = ("processed-" ++ file)%string) \/
  (exists dir file,
     dir <> ""%string /\ key = (dir ++ "/" ++ file)%string /\
     PyStr.contains "/" file = false /\
     generate_destination_key key
       = (dir ++ "/" ++ "processed-" ++ file)%string).
Proof.
  destruct (key_cases key) as [Hno|[(file & Ek & Hf)|(dir & file & Hd & Ek & Hf)]].
  - left. split; [assumption|]. apply generate_destination_key_flat. assumption.
  - right. left. exists file. repeat split; try assumption.
    rewrite Ek. change ("/" ++ file)%string with ("" ++ "/" ++ file)%string.
    rewrite (generate_destination_key_dir "" file Hf). reflexivity.
  - right. right. exists dir, file. repeat split; try assumption.
    rewrite Ek, (generate_destination_key_dir dir file Hf).
    destruct (String.eqb_spec dir ""); [contradiction | reflexivity].
Qed.

Lemma split_dir_file (dir file : string) :
  PyStr.contains "/" file = false ->
  PyStr.split "/" (dir ++ "/" ++ file) = PyStr.split "/" dir ++ [file].
Proof. intros Hf. apply (split_append "/" dir file Hf). Qed.

Lemma dir_file_unique (d1 f1 d2 f2 : string) :
  PyStr.contains "/" f1 = false -> PyStr.contains "/" f2 = false ->
  (d1 ++ "/" ++ f1)%string = (d2 ++ "/" ++ f2)%string ->
  d1 = d2 /\ f1 = f2.
Proof.
  intros H1 H2 E.
  apply (f_equal (PyStr.split "/")) in E.
  rewrite (split_dir_file _ _ H1), (split_dir_file _ _ H2) in E.
  apply app_inj_tail in E as [Ed Ef]. split; [|assumption].
  rewrite <- (join_split "/" d1), <- (join_split "/" d2), Ed. reflexivity.
Qed.

Lemma processed_no_slash (file : string) :
  PyStr.contains "/" file = false ->
  PyStr.contains "/" ("processed-" ++ file) = false.
Proof. intros H. simpl. assumption. Qed.

Lemma processed_inj (a b : string) :
  ("processed-" ++ a)%string = ("processed-" ++ b)%string -> a = b.
Proof. intros E. simpl in E. injection E as E. exact E. Qed.

(** Two source keys share a destination key only when one is the other
    with a slash in front: apart from that, outputs do not overwrite each
    other. *)
Theorem destination_key_collisions (k1 k2 : string) :
  generate_destination_key k1 = generate_destination_key k2 ->
  k1 = k2 \/ k1 = ("/" ++ k2)%string \/ k2 = ("/" ++ k1)%string.
Proof.
  intros E.
  destruct (destination_key_cases k1)
    as [[N1 D1]|[(f1 & K1 & F1 & D1)|(d1 & f1 & Hd1 & K1 & F1 & D1)]];
  destruct (destination_key_cases k2)
    as [[N2 D2]|[(f2 & K2 & F2 & D2)|(d2 & f2 & Hd2 & K2 & F2 & D2)]];
  rewrite D1, D2 in E.
  - left. apply processed_inj. assumption.
  - right. right. apply processed_inj in E. subst. reflexivity.
  - exfalso. apply (f_equal (PyStr.contains "/")) in E.
    rewrite (processed_no_slash _ N1), contains_append in E. simpl in E.
    rewrite orb_true_r in E. discriminate.
  - right. left. apply processed_inj in E. subst. reflexivity.
  - left. apply processed_inj in E. subst. reflexivity.
  - exfalso. apply (f_equal (PyStr.contains "/")) in E.
    rewrite (processed_no_slash _ F1), contains_append in E. simpl in E.
    rewrite orb_true_r in E. discriminate.
  - exfalso. apply (f_equal (PyStr.contains "/")) in E.
    rewrite (processed_no_slash _ N2), contains_append in E. simpl in E.
    rewrite orb_true_r in E. discriminate.
  - exfalso. apply (f_equal (PyStr.contains "/")) in E.
    rewrite (processed_no_slash _ F2), contains_append in E. simpl in E.
    rewrite orb_true_r in E. discriminate.
  - left.
    destruct (dir_file_unique d1 ("processed-" ++ f1) d2 ("processed-" ++ f2))
      as [Ed Ef]; try (apply processed_no_slash; assumption); try assumption.
    apply processed_inj in Ef. subst. reflexivity.
Qed.

(** ** The extension seen by [splitext] *)

Module SplitextFacts.

Import PyStr PyStrFacts.
Local Open Scope string_scope.

Lemma rfind_from_app (c : ascii) (s1 s2 : string) (i acc : Z) :
  rfind_from c (s1 ++ s2) i acc =
  rfind_from c s2 (i + Z.of_nat (String.length s1)) (rfind_from c s1 i acc).
Proof.
  revert i acc. induction s1 as [|a s1 IH]; intros i acc; simpl String.length.
  - simpl. rewrite Z.add_0_r. reflexivity.
  - cbn [append rfind_from]. rewrite IH. f_equal. lia.
Qed.

Lemma rfind_from_absent (c : ascii) (s : string) (i acc : Z) :
  contains c s = false -> rfind_from c s i acc = acc.
Proof.
  revert i acc. induction s as [|a s IH]; intros i acc H; simpl in *.
  - reflexivity.
  - apply orb_false_iff in H as [Ha Hs]. rewrite Ha. apply IH. assumption.
Qed.

Lemma rfind_from_bound (c : ascii) (s : string) (i acc : Z) :
  acc < i -> rfind_from c s i acc < i + Z.of_nat (String.length s).
Proof.
  revert i acc. induction s as [|a s IH]; intros i acc H.
  - simpl. lia.
  - cbn [rfind_from String.length].
    specialize (IH (i + 1) (if Ascii.eqb a c then i else acc)).
    destruct (Ascii.eqb a c); lia.
Qed.

Lemma rfind_from_lower (c : ascii) (s : string) (i acc : Z) :
  acc <= rfind_from c s i acc \/ i <= rfind_from c s i acc.
Proof.
  revert i acc. induction s as [|a s IH]; intros i acc.
  - left. simpl. lia.
  - cbn [rfind_from].
    destruct (IH (i + 1) (if Ascii.eqb a c then i else acc)) as [H|H];
      destruct (Ascii.eqb a c); lia.
Qed.

Lemma substring_prefix (stem rest : string) :
  substring 0 (String.length stem) (stem ++ rest) = stem.
Proof.
  induction stem as [|a stem IH]; simpl.
  - destruct rest; reflexivity.
  - f_equal. exact IH.
Qed.

Lemma get_middle (u : string) (c : ascii) (v : string) :
  String.get (String.length u) (u ++ String c v) = Some c.
Proof. induction u as [|a u IH]; simpl; [reflexivity | exact IH]. Qed.

Lemma has_non_dot_found (p : string) (c : ascii) (j : nat) :
  String.get j p = Some c -> c <> "."%char ->
  forall (steps : nat) (i : Z),
    0 <= i <= Z.of_nat j -> Z.of_nat j < i + Z.of_nat steps ->
    has_non_dot p i steps = true.
Proof.
  intros Hget Hc. induction steps as [|n IH]; intros i Hi Hj.
  - lia.
  - cbn [has_non_dot].
    destruct (Z.eq_dec i (Z.of_nat j)) as [->|Hne].
    + rewrite Nat2Z.id, Hget.
      destruct c as [[|] [|] [|] [|] [|] [|] [|] [|]];
        try reflexivity. contradiction Hc. reflexivity.
    + destruct (String.get (Z.to_nat i) p) as [ch|]; [|reflexivity].
      destruct (Ascii.eqb_spec ch ".") as [->|Hch].
      * apply IH; lia.
      * destruct ch as [[|] [|] [|] [|] [|] [|] [|] [|]];
          try reflexivity. contradiction Hch. reflexivity.
Qed.

(** A file name with a character other than a dot before its last dot is
    split at that dot. *)
Lemma splitext_at_last_dot (u : string) (c : ascii) (v e : string) :
  c <> "."%char -> c <> "/"%char ->
  contains "/" v = false ->
  contains "." e = false -> contains "/" e = false ->
  splitext (u ++ String c v ++ String "." e)
  = (u ++ String c v, String "." e).
Proof.
  intros Hc1 Hc2 Hv He1 He2.
  set (stem := u ++ String c v).
  assert (Ep : u ++ String c v ++ String "." e = stem ++ String "." e).
  { unfold stem. rewrite append_assoc. reflexivity. }
  rewrite Ep. unfold splitext, rfind.
  assert (Hdot : rfind_from "." (stem ++ String "." e) 0 (-1)
                 = Z.of_nat (String.length stem)).
  { rewrite rfind_from_app. cbn [rfind_from]. rewrite Ascii.eqb_refl.
    rewrite rfind_from_absent by assumption. lia. }
  assert (Hsep : rfind_from "/" (stem ++ String "." e) 0 (-1)
                 = rfind_from "/" u 0 (-1)).
  { rewrite rfind_from_app. cbn [rfind_from]. simpl Ascii.eqb. cbv iota.
    rewrite rfind_from_absent by assumption.
    unfold stem. rewrite rfind_from_app. cbn [rfind_from].
    apply Ascii.eqb_neq in Hc2. rewrite Hc2.
    apply rfind_from_absent. assumption. }
  rewrite Hdot, Hsep.
  pose proof (rfind_from_bound "/" u 0 (-1) ltac:(lia)) as Hb.
  pose proof (rfind_from_lower "/" u 0 (-1)) as Hl.
  assert (Hlen : String.length stem = (String.length u + S (String.length v))%nat).
  { unfold stem. rewrite length_append. reflexivity. }
  set (sep := rfind_from "/" u 0 (-1)) in *.
  assert (Hlt : Z.ltb sep (Z.of_nat (String.length stem)) = true)
    by (apply Z.ltb_lt; lia).
  rewrite Hlt.
  assert (Hnd : has_non_dot (stem ++ String "." e) (sep + 1)
                  (Z.to_nat (Z.of_nat (String.length stem) - (sep + 1))) = true).
  { apply (has_non_dot_found _ c (String.length u)).
    - unfold stem. rewrite append_assoc. cbn [append]. apply get_middle.
    - assumption.
    - lia.
    - lia. }
  rewrite Hnd. cbn [andb]. f_equal.
  - unfold take. rewrite Nat2Z.id. apply substring_prefix.
  - unfold drop. rewrite Nat2Z.id, length_append.
    replace (String.length stem + String.length (String "." e) - String.length stem)%nat
      with (String.length (String "." e)) by lia.
    apply substring_suffix.
Qed.

End SplitextFacts.

Import SplitextFacts.

Lemma is_image_file_lower (key stem ext : string) :
  In ext image_extensions ->
  PyStr.lower key = (stem ++ ext)%string ->
  is_image_file key = true.
Proof.
  intros Hin E. unfold is_image_file. apply existsb_exists.
  exists ext. split; [assumption|].
  apply PyStrFacts.endswith_spec. exists stem. assumption.
Qed.

(** A key whose file name has a character other than a dot before one of
    the six extensions, in any letter case, passes the filter and gets the
    MIME type of that extension. *)
Theorem content_type_of_image_key (key u : string) (c : ascii)
  (v ext mime : string) :
  PyStr.lower key = (u ++ String c v ++ ext)%string ->
  c <> "."%char -> c <> "/"%char ->
  PyStr.contains "/" v = false ->
  In (ext, mime) content_types ->
  is_image_file key = true /\ get_content_type key = mime.
Proof.
  intros E Hc1 Hc2 Hv Hin. split.
  - apply (is_image_file_lower key (u ++ String c v) ext).
    + simpl in Hin. simpl.
      repeat destruct Hin as [Hin|Hin];
        try (injection Hin as <- _; tauto); contradiction.
    + rewrite E, PyStrFacts.append_assoc. reflexivity.
  - unfold get_content_type. rewrite E.
    simpl in Hin.
    repeat destruct Hin as [Hin|Hin];
      try (injection Hin as <- <-;
           rewrite splitext_at_last_dot by (assumption || reflexivity);
           reflexivity).
    contradiction.
Qed.

Lemma content_type_of_image_key_witness :
  is_image_file "Photos/Cat.JPG" = true /\
  get_content_type "Photos/Cat.JPG" = "image/jpeg"%string.
Proof.
  apply (content_type_of_image_key "Photos/Cat.JPG" "photos/ca" "t" "" ".jpg"
           "image/jpeg")%string.
  - reflexivity.
  - discriminate.
  - discriminate.
  - reflexivity.
  - simpl. tauto.
Defined.

(** A key that is only an extension, alone or right after a slash, passes
    the filter as well, and [splitext] sees no extension in it: the object
    is stored as a generic binary. *)
Theorem content_type_of_bare_extension (key dir ext : string) :
  In ext image_extensions ->
  PyStr.lower key = ext \/ PyStr.lower key = (dir ++ "/" ++ ext)%string ->
  is_image_file key = true /\
  get_content_type key = "application/octet-stream"%string.
Proof.
  intros Hin Hk.
  assert (Hext : exists e, ext = String "." e /\
                           PyStr.contains "." e = false /\
                           PyStr.contains "/" e = false /\
                           dict_get content_types ""%string
                             "application/octet-stream"%string
                           = "application/octet-stream"%string).
  { simpl in Hin.
    repeat destruct Hin as [<-|Hin]; try (eexists; repeat split; reflexivity).
    contradiction. }
  destruct Hext as (e & -> & He1 & He2 & Hd).
  destruct Hk as [E|E].
  - split; [apply (is_image_file_lower key ""%string _ Hin E)|].
    unfold get_content_type. rewrite E. unfold splitext, PyStr.rfind.
    cbn [PyStr.rfind_from]. simpl Ascii.eqb. cbv iota.
    rewrite !rfind_from_absent by assumption.
    reflexivity.
  - split; [apply (is_image_file_lower key (dir ++ "/") _ Hin);
            rewrite E, PyStrFacts.append_assoc; reflexivity|].
    unfold get_content_type. rewrite E. unfold splitext, PyStr.rfind.
    change (dir ++ "/" ++ String "." e)%string
      with (dir ++ String "/" (String "." e))%string.
    rewrite !rfind_from_app. cbn [PyStr.rfind_from]. simpl Ascii.eqb. cbv iota.
    rewrite !rfind_from_absent by assumption.
    replace (0 + Z.of_nat (String.length dir) + 1)
      with (Z.of_nat (String.length dir) + 1) by lia.
    rewrite Z.sub_diag. cbn [Z.to_nat has_non_dot]. rewrite andb_false_r.
    exact Hd.
Qed.

Lemma content_type_of_bare_extension_witness :
  is_image_file "album/.PNG" = true /\
  get_content_type "album/.PNG" = "application/octet-stream"%string.
Proof.
  apply (content_type_of_bare_extension "album/.PNG" "album" ".png")%string.
  - simpl. tauto.
  - right. reflexivity.
Defined.

Lemma destination_key_is_image_key_witness :
  is_image_file (generate_destination_key "photos/Cat.JPG") = true.
Proof.
  apply (destination_key_is_image_key "photos/Cat.JPG"). reflexivity.
Defined.

Lemma destination_key_collisions_witness :
  "/a.jpg"%string = "a.jpg"%string \/
  "/a.jpg"%string = ("/" ++ "a.jpg")%string \/
  "a.jpg"%string = ("/" ++ "/a.jpg")%string.
Proof.
  apply (destination_key_collisions "/a.jpg" "a.jpg"). reflexivity.
Defined.

(** ** Exact integers and exact quotients *)

Module PyFloatExact.
Import PyFloat PyFloatFacts PyFloatOrder.
Local Open Scope Q_scope.

Lemma two_pow_lt_inv a b : two_pow a < two_pow b -> (a < b)%Z.
Proof.
  intros H. unfold two_pow in H.
  apply (Qpower_lt_compat_l_inv 2); [assumption | reflexivity].
Qed.

Lemma round_half_even_Z (z : Z) : round_half_even (inject_Z z) = z.
Proof.
  unfold round_half_even. rewrite Qfloor_Z.
  assert (E : inject_Z z - inject_Z z == 0) by ring.
  rewrite (Qcompare_comp _ _ E (1 # 2) (1 # 2) (Qeq_refl _)). reflexivity.
Qed.

(** Integers below 2^53 are binary64 numbers: rounding leaves them. *)
Lemma fl_int_exact (k : Z) :
  (0 < k < 2 ^ 53)%Z -> fl (inject_Z k) == inject_Z k.
Proof.
  intros [Hk0 Hk].
  assert (Hx : 0 < inject_Z k).
  { change 0 with (inject_Z 0). rewrite <- Zlt_Qlt. assumption. }
  assert (F : fl (inject_Z k) = fl_pos (inject_Z k)).
  { unfold fl. simpl. destruct k; try lia. reflexivity. }
  rewrite F. unfold fl_pos, ulp.
  pose proof (ilog2_le _ Hx) as Hlo. pose proof (ilog2_lt _ Hx) as Hhi.
  set (e := ilog2 (inject_Z k)) in *.
  assert (He1 : (e < 53)%Z).
  { apply two_pow_lt_inv. apply Qle_lt_trans with (inject_Z k); [assumption|].
    rewrite (two_pow_Z 53) by lia. rewrite <- Zlt_Qlt. assumption. }
  assert (He0 : (0 <= e)%Z).
  { assert (two_pow 0 < two_pow (e + 1)).
    { apply Qle_lt_trans with (inject_Z k); [|assumption].
      change (two_pow 0) with (inject_Z 1). rewrite <- Zle_Qle. lia. }
    apply two_pow_lt_inv in H. lia. }
  assert (Einv : two_pow (52 - e) * two_pow (e - 52) == 1).
  { rewrite <- two_pow_add. replace (52 - e + (e - 52))%Z with 0%Z by lia.
    reflexivity. }
  assert (Hu : 0 < two_pow (e - 52)) by apply two_pow_pos.
  assert (Et : inject_Z k / two_pow (e - 52)
               == inject_Z (k * 2 ^ (52 - e))).
  { rewrite inject_Z_mult, <- (two_pow_Z (52 - e)) by lia.
    apply Qmult_inj_r with (two_pow (e - 52)); [lra|].
    assert (G1 : inject_Z k / two_pow (e - 52) * two_pow (e - 52) == inject_Z k)
      by (field; lra).
    assert (G2 : inject_Z k * two_pow (52 - e) * two_pow (e - 52)
                 == inject_Z k * (two_pow (52 - e) * two_pow (e - 52))) by ring.
    rewrite G1, G2, Einv. ring. }
  rewrite (round_half_even_comp _ _ Et), round_half_even_Z.
  rewrite inject_Z_mult, <- (two_pow_Z (52 - e)) by lia.
  assert (G : inject_Z k * two_pow (52 - e) * two_pow (e - 52)
              == inject_Z k * (two_pow (52 - e) * two_pow (e - 52))) by ring.
  rewrite G, Einv. ring.
Qed.

(** The truncated quotient of a small integer by a positive one is the
    integer quotient. *)
Lemma to_int_truediv (n d : Z) :
  (0 <= n < 2 ^ 24)%Z -> (0 < d < 2 ^ 24)%Z ->
  to_int (fl (inject_Z n / inject_Z d)) = (n / d)%Z.
Proof.
  intros Hn Hd.
  destruct (Z.eq_dec n 0) as [->|Hn0].
  - reflexivity.
  - assert (Qn : 0 < inject_Z n <= 16777216).
    { split.
      - change 0 with (inject_Z 0). rewrite <- Zlt_Qlt. lia.
      - change 16777216 with (inject_Z 16777216). rewrite <- Zle_Qle.
        change (2 ^ 24)%Z with 16777216%Z in Hn. lia. }
    assert (Qd : 0 < inject_Z d).
    { change 0 with (inject_Z 0). rewrite <- Zlt_Qlt. lia. }
    assert (Hx : 0 < inject_Z n / inject_Z d) by (apply Qlt_shift_div_l; lra).
    pose proof (fl_div_err (inject_Z n) (inject_Z d) (proj1 Qn) Qd) as [Elo Ehi].
    pose proof (Z.div_mod n d ltac:(lia)) as Hdm.
    pose proof (Z.mod_pos_bound n d (proj1 Hd)) as Hm.
    assert (Hk : (0 <= n / d)%Z) by (apply Z.div_pos; lia).
    set (v := fl (inject_Z n / inject_Z d)) in *.
    assert (Hv : 0 <= v) by (apply Qlt_le_weak, fl_pos_gt; assumption).
    rewrite to_int_nonneg by assumption.
    assert (Hup : v < inject_Z (n / d + 1)).
    { apply Qmult_lt_r with (z := inject_Z d); [assumption|].
      apply Qlt_le_trans with (inject_Z n + 1).
      - eps_const. lra.
      - rewrite <- inject_Z_mult. change 1 with (inject_Z 1).
        rewrite <- inject_Z_plus, <- Zle_Qle. nia. }
    assert (Hdn : inject_Z (n / d) <= v).
    { destruct (Z.eq_dec (n mod d) 0) as [Hz|Hnz].
      - assert (E : inject_Z n / inject_Z d == inject_Z (n / d)).
        { apply Qmult_inj_r with (inject_Z d); [lra|].
          assert (G : inject_Z n / inject_Z d * inject_Z d == inject_Z n)
            by (field; lra).
          rewrite G, <- inject_Z_mult. apply inject_Z_injective. nia. }
        assert (Hkpos : (0 < n / d < 2 ^ 53)%Z).
        { split; [nia|]. apply Z.le_lt_trans with n.
          - apply Z.div_le_upper_bound; nia.
          - apply Z.lt_trans with (2 ^ 24)%Z; [lia | reflexivity]. }
        unfold v. rewrite (fl_comp _ _ Hx E), (fl_int_exact _ Hkpos).
        apply Qle_refl.
      - apply Qmult_le_r with (z := inject_Z d); [assumption|].
        apply Qle_trans with (inject_Z n - 1).
        + rewrite <- inject_Z_mult. change 1 with (inject_Z 1).
          unfold Qminus. rewrite <- inject_Z_opp, <- inject_Z_plus, <- Zle_Qle.
          nia.
        + eps_const. lra. }
    assert (Hf1 : (n / d <= Qfloor v)%Z).
    { rewrite <- (Qfloor_Z (n / d)). apply Qfloor_resp_le. assumption. }
    pose proof (Qfloor_le v) as Hf.
    assert (Hlt : inject_Z (Qfloor v) < inject_Z (n / d + 1)) by lra.
    rewrite <- Zlt_Qlt in Hlt. lia.
Qed.

End PyFloatExact.

(** ** The alpha scaling of the image watermark *)

(** [int(a * opacity / 255)] on two bytes is the integer quotient: the
    division is rounded once and the truncation is exact.  The scaled
    alpha is a byte again, at most the alpha it comes from, equal to it at
    opacity 255 and zero at opacity 0. *)
Theorem scale_alpha_floor (a opacity : Z) :
  0 <= a <= 255 -> 0 <= opacity <= 255 ->
  scale_alpha a opacity = a * opacity / 255 /\
  0 <= scale_alpha a opacity <= a /\
  scale_alpha a 255 = a /\
  scale_alpha a 0 = 0.
Proof.
  intros Ha Ho.
  assert (E : forall o, 0 <= o <= 255 -> scale_alpha a o = a * o / 255).
  { intros o Hb. unfold scale_alpha, PyFloat.int_truediv. simpl Z.eqb. cbv iota.
    apply PyFloatExact.to_int_truediv.
    - split; [nia|]. apply Z.le_lt_trans with (255 * 255); [nia | reflexivity].
    - split; reflexivity. }
  rewrite !E by lia. repeat split.
  - apply Z.div_pos; nia.
  - apply Z.div_le_upper_bound; nia.
  - apply Z.div_mul. discriminate.
  - rewrite Z.mul_0_r. reflexivity.
Qed.

Lemma scale_alpha_floor_witness :
  scale_alpha 200 128 = 200 * 128 / 255 /\
  0 <= scale_alpha 200 128 <= 200 /\
  scale_alpha 200 255 = 200 /\
  scale_alpha 200 0 = 0.
Proof. apply (scale_alpha_floor 200 128); lia. Defined.

(** ** The image watermark *)

Lemma rgba_px_as_rgba (pil : pillow) (img : raster) (x y : Z) :
  rgba_px pil (if negb (String.eqb (mode img) "RGBA")
               then convert_rgba pil img else img) x y
  = rgba_px pil img x y.
Proof. destruct (negb _); reflexivity. Qed.

Lemma size_as_rgba (pil : pillow) (img : raster) :
  size (if negb (String.eqb (mode img) "RGBA")
        then convert_rgba pil img else img) = size img.
Proof. destruct (negb _); reflexivity. Qed.

Lemma scale_alpha_0 (a : Z) : scale_alpha a 0 = 0.
Proof. unfold scale_alpha. rewrite Z.mul_0_r. reflexivity. Qed.

(** The image watermark raises when the scale ratio is infinite or NaN;
    when it returns, the result has the size of the image and mode RGBA,
    and at opacity 0 no pixel is changed, whatever the watermark. *)
Theorem image_watermark_opacity_zero (pil : pillow)
  (resample : raster -> Z * Z -> option raster)
  (img watermark : raster) (opacity : Z) (position : string)
  (ratio : pyfloat) :
  pillow_laws pil ->
  (ratio = Infinite \/ ratio = NotANumber ->
   add_image_watermark pil resample img watermark opacity position ratio
   = None) /\
  forall out,
    add_image_watermark pil resample img watermark opacity position ratio
    = Some out ->
    size out = size img /\ mode out = "RGBA"%string /\
    (opacity = 0 -> forall x y, pixel pil out x y = pixel pil img x y).
Proof.
  intros laws. unfold add_image_watermark.
  destruct (size img) as [img_width img_height] eqn:Es.
  split.
  - intros [-> | ->]; unfold PyFloatRange.int_of_product;
      destruct (PyFloatRange.of_int img_width); reflexivity.
  - intros out Hout.
    destruct (PyFloatRange.int_of_product img_width ratio) as [wm_width|];
      [|discriminate].
    destruct (PyFloatRange.int_truediv _ _) as [r|]; [|discriminate].
    destruct (PyFloatRange.int_of_product _ (Finite r)) as [wm_height|];
      [|discriminate].
    destruct (resample watermark _) as [wm|]; [|discriminate].
    injection Hout as <-.
    split; [cbn [size]; rewrite size_as_rgba; exact Es|].
    split; [reflexivity|].
    intros -> x y. unfold pixel. cbn [rgba_px]. unfold paste_rgba.
    rewrite rgba_px_as_rgba.
    destruct (in_box _ _ x y); [|reflexivity].
    destruct (rgba_px pil img x y) as [[[r0 g0] b0] a0].
    unfold with_opacity.
    destruct (rgba_px pil _ _ _) as [[[r1 g1] b1] a1].
    rewrite scale_alpha_0, !(blend_0 pil laws). reflexivity.
Qed.

(** A red 2x2 watermark scaled to half the width of a 100x100 image is
    pasted on the square from (20, 20) to (70, 70); the pixel (30, 30) lies
    under it and is kept at opacity 0. *)
Lemma image_watermark_opacity_zero_witness :
  exists out,
    add_image_watermark reference_pillow sample_resample
      (ImgRGB (100, 100) (fun _ _ => (10, 20, 30)))
      (ImgRGBA (2, 2) (fun _ _ => (255, 0, 0, 255))) 0 "top-left"
      (Finite (1 # 2)) = Some out /\
    size out = (100, 100) /\ mode out = "RGBA"%string /\
    pixel reference_pillow out 30 30 = (10, 20, 30, 255).
Proof.
  destruct (add_image_watermark reference_pillow sample_resample
              (ImgRGB (100, 100) (fun _ _ => (10, 20, 30)))
              (ImgRGBA (2, 2) (fun _ _ => (255, 0, 0, 255))) 0 "top-left"
              (Finite (1 # 2))) as [out|] eqn:E;
    [|vm_compute in E; discriminate E].
  exists out. split; [reflexivity|].
  destruct (image_watermark_opacity_zero reference_pillow sample_resample
              (ImgRGB (100, 100) (fun _ _ => (10, 20, 30)))
              (ImgRGBA (2, 2) (fun _ _ => (255, 0, 0, 255))) 0 "top-left"
              (Finite (1 # 2)) reference_pillow_laws) as [_ H].
  destruct (H out E) as (Hs & Hm & Hp).
  split; [exact Hs|]. split; [exact Hm|]. exact (Hp eq_refl 30 30).
Defined.

(** At opacity 255 the same pixel takes the colour of the watermark, and a
    pixel outside the square keeps its own. *)
Example image_watermark_opaque :
  option_map (fun out => (pixel reference_pillow out 30 30,
                          pixel reference_pillow out 80 80))
    (add_image_watermark reference_pillow sample_resample
       (ImgRGB (100, 100) (fun _ _ => (10, 20, 30)))
       (ImgRGBA (2, 2) (fun _ _ => (255, 0, 0, 255))) 255 "top-left"
       (Finite (1 # 2)))
  = Some ((255, 0, 0, 255), (10, 20, 30, 255)).
Proof. vm_compute. reflexivity. Qed.

(** ** The text watermark *)

(** At opacity 0 the text watermark, when it returns, changes no opaque
    pixel, under the text or not, provided mixing zero with zero gives
    zero. *)
Theorem text_watermark_opacity_zero (pil : pillow) (img : raster)
  (text position : string) (ratio : pyfloat) :
  pillow_laws pil ->
  (forall m, blend pil m 0 0 = 0) ->
  forall out,
    add_watermark pil img text 0 position ratio = Some out ->
    forall x y r g b,
      pixel pil img x y = (r, g, b, 255) ->
      pixel pil out x y = (r, g, b, 255).
Proof.
  intros laws Hzero out Hout x y r g b Hpx.
  rewrite (add_watermark_pixel pil _ _ _ _ _ _ x y Hout). cbv zeta.
  rewrite Hzero, (alpha_over_transparent pil laws), Hpx.
  rewrite !(blend_255 pil laws). reflexivity.
Qed.

(** The pixel (20, 20) is under the text of [inked_pillow] at the top-left
    anchor: opacity 0 keeps it, where opacity 200 changes it
    ([watermark_changes_covered_pixel]). *)
Lemma text_watermark_opacity_zero_witness :
  watermark_cov inked_pillow (ImgRGB (40, 40) (fun _ _ => (10, 20, 30)))
    "By Ahmed_Ashraf" "top-left" 20 20 = 255 /\
  exists out,
    add_watermark inked_pillow (ImgRGB (40, 40) (fun _ _ => (10, 20, 30)))
      "By Ahmed_Ashraf" 0 "top-left" (Finite (3 # 10)) = Some out /\
    pixel inked_pillow out 20 20 = (10, 20, 30, 255).
Proof.
  split; [reflexivity|].
  destruct (add_watermark inked_pillow (ImgRGB (40, 40) (fun _ _ => (10, 20, 30)))
              "By Ahmed_Ashraf" 0 "top-left" (Finite (3 # 10)))
    as [out|] eqn:E; [|vm_compute in E; discriminate E].
  exists out. split; [reflexivity|].
  apply (text_watermark_opacity_zero inked_pillow
           (ImgRGB (40, 40) (fun _ _ => (10, 20, 30)))
           "By Ahmed_Ashraf" "top-left" (Finite (3 # 10)) inked_pillow_laws
           (fun m => eq_refl) out E 20 20).
  reflexivity.
Defined.

(** A box of the measured width and height that fits with its margins is
    anchored at least 20 pixels from every edge, whatever the anchor
    string. *)
Lemma anchor_box_inside_image (position : string)
  (img_w img_h tw th : Z) :
  0 <= tw -> 0 <= th -> tw + 40 <= img_w -> th + 40 <= img_h ->
  let '(x, y) := watermark_xy position img_w img_h tw th in
  20 <= x /\ x + tw <= img_w - 20 /\ 20 <= y /\ y + th <= img_h - 20.
Proof.
  intros Htw Hth Hw Hh. unfold watermark_xy. cbv zeta.
  change (dict_get (position_map img_w img_h tw th) "bottom-right"%string (0, 0))
    with (img_w - tw - 20, img_h - th - 20).
  unfold position_map, margin. cbn [dict_get].
  repeat match goal with
  | |- context [String.eqb position ?k] => destruct (String.eqb position k)
  end;
  try (pose proof (Z.div_mod (img_w - tw) 2 ltac:(lia));
       pose proof (Z.mod_pos_bound (img_w - tw) 2 ltac:(lia));
       pose proof (Z.div_mod (img_h - th) 2 ltac:(lia));
       pose proof (Z.mod_pos_bound (img_h - th) 2 ltac:(lia)));
  lia.
Qed.

(** The code measures the text at (0, 0), keeps the width and the height
    of the box and drops its offsets [(x0, y0)]; the text is drawn with
    them.  When the measured box fits with its margins, the rectangle the
    text is drawn in lies between [20 + offset] and [size - 20 + offset] on
    each axis, whatever the anchor string; at the bottom-right anchor its
    right and bottom edges are exactly at [size - 20 + offset], so the
    margin of 20 pixels shrinks by the offsets. *)
Theorem watermark_drawn_box (pil : pillow) (img : raster)
  (text position : string) (img_w img_h x0 y0 x1 y1 : Z) :
  size img = (img_w, img_h) ->
  textbbox pil text = (x0, y0, x1, y1) ->
  0 <= x1 - x0 -> 0 <= y1 - y0 ->
  (x1 - x0) + 40 <= img_w -> (y1 - y0) + 40 <= img_h ->
  (forall l t r b,
     drawn_bbox pil img text position = (l, t, r, b) ->
     20 + x0 <= l /\ r <= img_w - 20 + x0 /\
     20 + y0 <= t /\ b <= img_h - 20 + y0) /\
  drawn_bbox pil img text "bottom-right"
  = (img_w - 20 + x0 - (x1 - x0), img_h - 20 + y0 - (y1 - y0),
     img_w - 20 + x0, img_h - 20 + y0).
Proof.
  intros Hs Hb Htw Hth Hw Hh. unfold drawn_bbox, watermark_origin.
  rewrite Hs, Hb. split.
  - intros l t r b.
    pose proof (anchor_box_inside_image position img_w img_h
                  (x1 - x0) (y1 - y0) Htw Hth Hw Hh) as Ha.
    destruct (watermark_xy position img_w img_h (x1 - x0) (y1 - y0)) as [x y].
    intros E. injection E as <- <- <- <-. lia.
  - unfold watermark_xy, position_map, margin. cbn [dict_get].
    simpl String.eqb. cbv iota. f_equal; [f_equal; [f_equal|]|]; lia.
Qed.

(** With a bounding box of (0, 1, 2, 3) in a 100x100 image the text drawn
    at the bottom-right anchor ends at row 81, 19 pixels from the bottom
    edge. *)
Lemma watermark_drawn_box_witness :
  drawn_bbox inked_pillow (ImgRGB (100, 100) (fun _ _ => (10, 20, 30)))
    "By Ahmed_Ashraf" "bottom-right"
  = (100 - 20 + 0 - (2 - 0), 100 - 20 + 1 - (3 - 1),
     100 - 20 + 0, 100 - 20 + 1).
Proof.
  apply (watermark_drawn_box inked_pillow
           (ImgRGB (100, 100) (fun _ _ => (10, 20, 30)))
           "By Ahmed_Ashraf" "bottom-right" 100 100 0 1 2 3);
    try reflexivity; lia.
Defined.

(** ** The format dispatch and the normaliser *)

(** The format handed to [save] is always one of five, and dispatching on
    it again gives it back. *)
Theorem output_format_range (original_format : option string) :
  In (output_format original_format)
     ["JPEG"; "PNG"; "GIF"; "BMP"; "WEBP"]%string /\
  output_format (Some (output_format original_format))
  = output_format original_format.
Proof.
  assert (Hin : In (output_format original_format)
                  ["JPEG"; "PNG"; "GIF"; "BMP"; "WEBP"]%string).
  { destruct original_format as [f|]; [|simpl; tauto].
    unfold output_format, format_map. cbn [dict_get].
    repeat match goal with
    | |- context [String.eqb f ?k] => destruct (String.eqb f k)
    end; simpl; tauto. }
  split; [assumption|].
  simpl in Hin. repeat destruct Hin as [<-|Hin]; try reflexivity.
  contradiction.
Qed.

Lemma normalize_size (pil : pillow) (img : raster) :
  size (normalize pil img) = size img.
Proof. unfold normalize. destruct (mode_in _ _); reflexivity. Qed.

(** After the normaliser no raster has mode RGBA, LA or P; normalising
    twice is normalising once, and the size is kept. *)
Theorem normalize_leaves_no_alpha_mode (pil : pillow) (img : raster) :
  ~ In (mode (normalize pil img)) ["RGBA"; "LA"; "P"]%string /\
  normalize pil (normalize pil img) = normalize pil img /\
  size (normalize pil img) = size img.
Proof.
  split; [|split; [|apply normalize_size]].
  - unfold normalize.
    destruct (mode_in (mode img) _) eqn:E.
    + simpl. intros H. repeat destruct H as [H|H]; try discriminate H; exact H.
    + intros Hin.
      assert (mode_in (mode img) ["RGBA"; "LA"; "P"]%string = true).
      { unfold mode_in. apply existsb_exists. exists (mode img).
        split; [assumption | apply String.eqb_refl]. }
      congruence.
  - destruct (mode_in (mode img) ["RGBA"; "LA"; "P"]%string) eqn:E.
    + assert (Hn : exists px, normalize pil img = ImgRGB (size img) px).
      { unfold normalize. rewrite E. eexists. reflexivity. }
      destruct Hn as [px ->]. reflexivity.
    + assert (Hn : normalize pil img = img).
      { unfold normalize. rewrite E. reflexivity. }
      rewrite !Hn. reflexivity.
Qed.

(** ** The pipeline between the decoder and the encoder *)



(** The end-to-end sizes on that input: an 800x400 RGB raster saved as
    JPEG at quality 85; with an infinite size ratio the pipeline raises. *)
Example process_2000x1000 :
  option_map (fun '(out, call) => (size out, mode out, call))
    (process_raster reference_pillow sample_resample
       (ImgRGB (2000, 1000) (fun _ _ => (10, 20, 30))) (Some "JPEG"%string)
       800 600 85 "By Ahmed_Ashraf" 200 "bottom-right" (Finite (3 # 10)))
  = Some ((800, 400), "RGB"%string,
          {| save_format := "JPEG"; save_quality := Some 85;
             save_optimize := Some true |}) /\
  process_raster reference_pillow sample_resample
    (ImgRGB (2000, 1000) (fun _ _ => (10, 20, 30))) (Some "JPEG"%string)
    800 600 85 "By Ahmed_Ashraf" 200 "bottom-right" Infinite = None.
Proof. split; vm_compute; reflexivity. Qed.


(** ** What the handler calls *)

Section HandlerCalls.

Variable cfg : config.
Variable svc : services.

Lemma justified_more (r : record) (records : list record) (c : call) :
  justified cfg svc records c -> justified cfg svc (r :: records) c.
Proof.
  destruct c; simpl.
  - intros (raw & Hin & H). exists raw. tauto.
  - intros (b & raw & Hin & H). exists b, raw. tauto.
  - intros (Hb & sb & raw & ic & Hin & H). split; [assumption|].
    exists sb, raw, ic. tauto.
Qed.

Lemma loop_body_justified (r : record) (w : world) (c : call) :
  In c (calls (fst (loop_body cfg svc r w))) ->
  In c (calls w) \/ justified cfg svc [r] c.
Proof.
  destruct r as [[bucket raw]|e]; simpl; [|tauto].
  destruct (is_image_file (unquote_plus svc raw)) eqn:Himg; simpl; [|tauto].
  destruct (get_object svc bucket (unquote_plus svc raw)) as [content|e] eqn:Hget;
    simpl.
  - destruct (process_image svc content cfg) as [processed|e] eqn:Hproc; simpl.
    + assert (G : forall l,
                In c (((calls w ++ [GetObject bucket (unquote_plus svc raw)])
                       ++ [ProcessImage content]) ++ l) ->
                l = [PutObject (DESTINATION_BUCKET cfg)
                       (generate_destination_key (unquote_plus svc raw))
                       processed (get_content_type (unquote_plus svc raw))] ->
                In c (calls w) \/ justified cfg svc [Ok (bucket, raw)] c).
      { intros l Hin ->. rewrite !in_app_iff in Hin. simpl in Hin.
        destruct Hin as [[[H|[<-|[]]]|[<-|[]]]|[<-|[]]]; [tauto| | |]; right; simpl.
        - exists raw. tauto.
        - exists bucket, raw. tauto.
        - split; [reflexivity|]. exists bucket, raw, content. tauto. }
      destruct (put_object svc _ _ _ _); simpl; intros Hin;
        apply (G _ Hin); reflexivity.
    + rewrite !in_app_iff. simpl.
      intros [[H|[<-|[]]]|[<-|[]]]; [tauto| |]; right; simpl.
      * exists raw. tauto.
      * exists bucket, raw. tauto.
  - rewrite !in_app_iff. simpl.
    intros [H|[<-|[]]]; [tauto|]. right. simpl. exists raw. tauto.
Qed.

Lemma for_records_justified (records : list record) (w : world) (c : call) :
  In c (calls (fst (for_records cfg svc records w))) ->
  In c (calls w) \/ justified cfg svc records c.
Proof.
  revert w. induction records as [|r rest IH]; intros w; simpl; [tauto|].
  pose proof (loop_body_justified r w c) as Hb.
  destruct (loop_body cfg svc r w) as [w' [e|]]; simpl in *.
  - intros Hin. destruct (Hb Hin) as [H|H]; [tauto|]. right.
    destruct c; simpl in *.
    + destruct H as (raw & [Hin'|[]] & H). exists raw. tauto.
    + destruct H as (b & raw & [Hin'|[]] & H). exists b, raw. tauto.
    + destruct H as (Hd & sb & raw & ic & [Hin'|[]] & H). split; [assumption|].
      exists sb, raw, ic. tauto.
  - intros Hin. destruct (IH w' Hin) as [H|H].
    + destruct (Hb H) as [H'|H']; [tauto|]. right.
      destruct c; simpl in *.
      * destruct H' as (raw & [Hin'|[]] & H'). exists raw. tauto.
      * destruct H' as (b & raw & [Hin'|[]] & H'). exists b, raw. tauto.
      * destruct H' as (Hd & sb & raw & ic & [Hin'|[]] & H').
        split; [assumption|]. exists sb, raw, ic. tauto.
    + right. apply justified_more. assumption.
Qed.

(** Every call of an invocation is accounted for by a record of the batch:
    only image keys are read, and only the output of the transform of an
    object that was read is written, to the destination bucket under the
    derived key. *)
Theorem handler_calls_are_justified (records : list record) (c : call) :
  In c (calls (fst (lambda_handler cfg svc (Ok records) empty_world))) ->
  justified cfg svc records c.
Proof.
  rewrite lambda_handler_world. intros Hin.
  destruct (for_records_justified records empty_world c Hin) as [H|H];
    [contradiction | assumption].
Qed.

(** A record whose accesses raise ends the batch: the records before it
    keep their effects and the records after it cause no call. *)
Theorem malformed_record_ends_the_batch
  (before after : list record) (e : string) (w : world) :
  Forall well_formed before ->
  calls (fst (lambda_handler cfg svc (Ok (before ++ Raise e :: after)) w))
  = calls (fst (lambda_handler cfg svc (Ok before) w)).
Proof.
  intros Hwf. rewrite !lambda_handler_world.
  rewrite (for_records_app cfg svc before (Raise e :: after) w Hwf).
  reflexivity.
Qed.

(** The status is 200 exactly when no record of the batch raised in its
    accesses; it is 500 otherwise. *)
Theorem status_200_iff_well_formed (records : list record) (w : world) :
  (statusCode (snd (lambda_handler cfg svc (Ok records) w)) = 200
   <-> Forall well_formed records) /\
  (statusCode (snd (lambda_handler cfg svc (Ok records) w)) = 200 \/
   statusCode (snd (lambda_handler cfg svc (Ok records) w)) = 500).
Proof.
  assert (Hs : forall o w',
             statusCode (snd (match o with
                              | None => (w', {| statusCode := 200;
                                   body := "Images processed successfully" |})
                              | Some e0 =>
                                (print ("Error in lambda_handler: " ++ e0) w',
                                 {| statusCode := 500;
                                    body := "Error processing images: " ++ e0 |})
                              end)) = 200 <-> o = None).
  { intros [e0|] w'; simpl; split; congruence. }
  split.
  - unfold lambda_handler.
    destruct (for_records cfg svc records w) as [w' o] eqn:E.
    rewrite (Hs o w'). split.
    + intros ->. revert w E.
      induction records as [|r rest IH]; intros w E; [constructor|].
      simpl in E. destruct r as [[b raw]|e0].
      * constructor; [exact I|].
        destruct (loop_body cfg svc (Ok (b, raw)) w) as [w1 [e1|]] eqn:E1.
        -- discriminate E.
        -- apply (IH w1). assumption.
      * simpl in E. discriminate E.
    + intros Hwf. pose proof (for_records_well_formed cfg svc records w Hwf) as H.
      rewrite E in H. exact H.
  - unfold lambda_handler.
    destruct (for_records cfg svc records w) as [w' [e0|]]; simpl; tauto.
Qed.

End HandlerCalls.

Lemma handler_calls_are_justified_witness :
  justified default_config sample_services
    [Ok ("uploads", "missing.jpg"); Ok ("uploads", "a/cat.png")]%string
    (PutObject "resized-image-bucket-9965" "a/processed-cat.png" "a/cat.png"
       "image/png").
Proof.
  apply (handler_calls_are_justified default_config sample_services
           [Ok ("uploads", "missing.jpg"); Ok ("uploads", "a/cat.png")]%string).
  vm_compute. tauto.
Defined.

Lemma malformed_record_ends_the_batch_witness :
  calls (fst (lambda_handler default_config sample_services
                (Ok ([Ok ("uploads", "a/cat.png")%string]
                     ++ Raise "'s3'"%string
                          :: [Ok ("uploads", "b/dog.png")%string])%list)
                empty_world))
  = calls (fst (lambda_handler default_config sample_services
                  (Ok [Ok ("uploads", "a/cat.png")]%string) empty_world)).
Proof.
  apply (malformed_record_ends_the_batch default_config sample_services
           [Ok ("uploads", "a/cat.png")]%string).
  repeat constructor.
Defined.


(** ** When the resize raises *)

Lemma fl_nonneg (x : Q) : (0 <= x)%Q -> (0 <= PyFloat.fl x)%Q.
Proof.
  intros Hx. unfold PyFloat.fl.
  destruct x as [[|p|p] d]; simpl.
  - apply Qle_refl.
  - apply Qlt_le_weak. change (PyFloat.fl_pos (Z.pos p # d)) with (PyFloat.fl (Z.pos p # d)).
    apply PyFloatFacts.fl_pos_gt. reflexivity.
  - exfalso. unfold Qle in Hx. simpl in Hx. lia.
Qed.

Lemma ratio_nonneg (n d : Z) :
  0 <= n -> 0 < d -> (0 <= inject_Z n / inject_Z d)%Q.
Proof.
  intros Hn Hd. apply Qle_shift_div_l.
  - change 0%Q with (inject_Z 0). rewrite <- Zlt_Qlt. assumption.
  - rewrite Qmult_0_l. change 0%Q with (inject_Z 0). rewrite <- Zle_Qle. assumption.
Qed.

(** For sizes from 0 up to the range of C ints the size computation
    raises exactly when one of the two heights is zero (a division by
    zero); a width of zero raises nothing. *)
Theorem resize_raises_iff_zero_height (w h W H : Z) :
  0 <= w < 2 ^ 31 -> 0 <= h < 2 ^ 31 -> 0 <= W < 2 ^ 31 -> 0 <= H < 2 ^ 31 ->
  (resize_dims w h W H = None <-> h = 0 \/ H = 0).
Proof.
  intros [Hw _] [Hh _] [HW _] [HH _].
  unfold resize_dims, PyFloat.int_truediv. split.
  - destruct (Z.eqb_spec h 0) as [->|Hh0]; [tauto|].
    destruct (Z.eqb_spec H 0) as [->|HH0]; [tauto|].
    destruct (PyFloat.gtb _ _) eqn:E; [|discriminate].
    apply PyFloatFacts.gtb_true in E.
    assert (Hb : (0 <= PyFloat.fl (inject_Z W / inject_Z H))%Q).
    { apply fl_nonneg, ratio_nonneg; lia. }
    unfold PyFloat.div.
    destruct (Qeq_bool _ 0) eqn:Ez; [|discriminate].
    apply Qeq_bool_iff in Ez. exfalso. lra.
  - intros [->| ->]; [reflexivity|].
    destruct (h =? 0); reflexivity.
Qed.

Lemma resize_raises_iff_zero_height_witness :
  resize_dims 800 600 800 0 = None <-> 600 = 0 \/ 0 = 0.
Proof.
  apply (resize_raises_iff_zero_height 800 600 800 0); split; try lia;
    reflexivity.
Defined.
